(** * SolTracer: the log parser, the Anchor decoder and the simulation
      orchestrator, embedded from the TypeScript sources

    - [src/utils/log-parser.ts]   : module [LogParser]
    - [src/utils/anchor-utils.ts] : module [AnchorUtils]
    - [src/core/simulator.ts]     : module [Simulator]

    JavaScript strings are represented by their UTF-8 byte sequence (Rocq's
    [string]); [startsWith], [includes] and the two regular expressions of
    the parser only look at ASCII bytes, and substring search commutes with
    the encoding.  Buffers are [list byte]. *)

From Stdlib Require Import NArith String Ascii.
From Stdlib.Strings Require Import Byte.
From stdpp Require Import base option list strings gmap.

Local Open Scope string_scope.
Local Open Scope list_scope.
Local Open Scope nat_scope.

(** ** JavaScript strings *)

Module JsString.

(** [s.startsWith(p)] *)
Definition startsWith (p s : string) : bool := String.prefix p s.

(** [s.includes(p)]: [p] occurs at some offset of [s]. *)
Fixpoint includes (p s : string) : bool :=
  String.prefix p s ||
  match s with
  | EmptyString => false
  | String _ s' => includes p s'
  end.

(** [s.slice(n)] for [0 <= n] *)
Fixpoint drop (n : nat) (s : string) : string :=
  match n, s with
  | O, _ => s
  | S n', String _ s' => drop n' s'
  | S _, EmptyString => EmptyString
  end.

(** [s.slice(0, n)] *)
Fixpoint take (n : nat) (s : string) : string :=
  match n, s with
  | S n', String c s' => String c (take n' s')
  | _, _ => EmptyString
  end.

(** truthiness of a string value: only [''] is falsy *)
Definition truthy (s : string) : bool :=
  match s with EmptyString => false | _ => true end.

(** the class [\d] of a regular expression without the [u] flag: [0-9] *)
Definition isDigit (c : ascii) : bool :=
  let n := N_of_ascii c in ((48 <=? n) && (n <=? 57))%N.

(** length of the longest run of digits at the start of [s] *)
Fixpoint digitRun (s : string) : nat :=
  match s with
  | String c s' => if isDigit c then S (digitRun s') else O
  | EmptyString => O
  end.

(** [parseInt(s, 10)] on a string of digits *)
Definition parseDigits (s : string) : N :=
  fold_left (fun acc c => (10 * acc + (N_of_ascii c - 48))%N)
            (list_ascii_of_string s) 0%N.

End JsString.

(** ** The fragment of regular expressions used by the parser

    Both patterns, [/invoke \[(\d+)\]/] and
    [/consumed (\d+) of \d+ compute units/], are sequences of literal text
    and of [\d+], captured or not.  The matcher is the backtracking one of
    the language: [\d+] is greedy and gives digits back one at a time, and
    [String.prototype.match] without the [g] flag reports the leftmost
    match, as the list of its captures. *)

Module Regex.
Import JsString.

Inductive token : Type :=
| Lit (text : string)
| Digits (captured : bool).

(** tries [k n], [k (n-1)], ..., [k 1] and keeps the first success *)
Fixpoint backtrack {A} (k : nat -> option A) (n : nat) : option A :=
  match n with
  | O => None
  | S n' => match k n with
            | Some r => Some r
            | None => backtrack k n'
            end
  end.

Fixpoint matchHere (re : list token) (s : string) : option (list string) :=
  match re with
  | [] => Some []
  | Lit p :: re' =>
      if startsWith p s then matchHere re' (drop (String.length p) s)
      else None
  | Digits captured :: re' =>
      backtrack
        (fun n =>
           match matchHere re' (drop n s) with
           | Some caps => Some (if captured then take n s :: caps else caps)
           | None => None
           end)
        (digitRun s)
  end.

(** leftmost match: offset 0 first, then 1, ... up to the end of [s] *)
Fixpoint search (re : list token) (s : string) : option (list string) :=
  match matchHere re s with
  | Some caps => Some caps
  | None => match s with
            | EmptyString => None
            | String _ s' => search re s'
            end
  end.

End Regex.

(** ** Values that are thrown, or reported as a simulation error *)

Inductive js_value : Type :=
| JsNull                                    (* null or undefined *)
| JsStr (s : string)
| JsBool (b : bool)
| JsObj (message : option string) (json : option string).
    (* an object: its [message] property when it has one, and what
       [JSON.stringify] returns for it ([None]: stringify throws) *)

(** [new Error(msg)], and the [TypeError]s of the runtime *)
Definition JsError (msg : string) : js_value := JsObj (Some msg) (Some "{}").

Inductive outcome (A : Type) : Type :=
| Ok (a : A)
| Throw (e : js_value).
Arguments Ok {A} a.
Arguments Throw {A} e.

(** ** src/utils/log-parser.ts *)

Module LogParser.
Import JsString Regex.

(** [/invoke \[(\d+)\]/] *)
Definition invokeRe : list token := [Lit "invoke ["; Digits true; Lit "]"].

(** [/consumed (\d+) of \d+ compute units/] *)
Definition consumedRe : list token :=
  [Lit "consumed "; Digits true; Lit " of "; Digits false;
   Lit " compute units"].

(** the three locals of [parseTransactionLogs] *)
Record parse_state : Type := ParseState {
  instructionLogs : gmap nat (list string);
  currentInstruction : nat;
  inInstruction : bool
}.

(** [instructionLogs[k].push(log)]; a [TypeError] when the bucket is
    undefined *)
Definition push (logs : gmap nat (list string)) (k : nat) (log : string)
  : outcome (gmap nat (list string)) :=
  match logs !! k with
  | Some bucket => Ok (<[k := bucket ++ [log]]> logs)
  | None => Throw (JsError "Cannot read properties of undefined (reading 'push')")
  end.

Definition pushCurrent (st : parse_state) (log : string) : outcome parse_state :=
  match push (instructionLogs st) (currentInstruction st) log with
  | Ok logs' => Ok (ParseState logs' (currentInstruction st) (inInstruction st))
  | Throw e => Throw e
  end.

(** the body of the [forEach] callback, lines 15-35 *)
Definition parseLine (st : parse_state) (log : string) : outcome parse_state :=
  if startsWith "Program " log && includes " invoke [" log then
    match search invokeRe log with
    | Some (depth :: _) =>
        if truthy depth then
          if String.eqb depth "1" then
            let cur := S (currentInstruction st) in
            let logs := instructionLogs st in
            (* instructionLogs[cur] = instructionLogs[cur] || [] *)
            let logs := <[cur := default [] (logs !! cur)]> logs in
            pushCurrent (ParseState logs cur true) log
          else if inInstruction st then pushCurrent st log
          else Ok st
        else Ok st
    | _ => Ok st
    end
  else if inInstruction st then pushCurrent st log
  else Ok st.

Fixpoint parseLines (st : parse_state) (logs : list string) : outcome parse_state :=
  match logs with
  | [] => Ok st
  | log :: rest =>
      match parseLine st log with
      | Ok st' => parseLines st' rest
      | Throw e => Throw e
      end
  end.

Definition initState : parse_state := ParseState ∅ 0 false.

Definition parseTransactionLogs (logs : list string)
  : outcome (gmap nat (list string)) :=
  match parseLines initState logs with
  | Ok st => Ok (instructionLogs st)
  | Throw e => Throw e
  end.

(** [logs.slice(-n)] *)
Definition lastN {A} (n : nat) (l : list A) : list A :=
  List.skipn (length l - n) l.

Definition indicatesFailure (log : string) : bool :=
  includes "failed" log || includes "Error:" log.

(** lines 71-82 *)
Definition isTransactionSuccessful (logs : list string) : bool :=
  if existsb indicatesFailure (lastN 5 logs) then false
  else existsb (includes "Program log: Success") logs.

(** lines 89-97; [None] is [undefined] *)
Fixpoint extractComputeUnits (logs : list string) : option N :=
  match logs with
  | [] => None
  | log :: rest =>
      match search consumedRe log with
      | Some (units :: _) =>
          if truthy units then Some (parseDigits units)
          else extractComputeUnits rest
      | _ => extractComputeUnits rest
      end
  end.

End LogParser.

(** ** src/utils/anchor-utils.ts *)

(** A [PublicKey] is represented by its base-58 text, which is what
    [toString()] returns and what the maps of the simulator are keyed by. *)
Abbreviation PublicKey := string (only parsing).

#[global] Instance byte_eq_dec : EqDecision byte := Byte.byte_eq_dec.

#[global] Instance outcome_ret : MRet outcome := fun _ a => Ok a.
#[global] Instance outcome_bind : MBind outcome := fun _ _ f m =>
  match m with
  | Ok a => f a
  | Throw e => Throw e
  end.

Module AnchorUtils.

Definition DISCRIMINATOR_SIZE : nat := 8.

Record IdlAccountItem : Type := {
  item_name : string;
  isMut : bool;
  isSigner : bool
}.

(** [type] is [any] in the source and is never inspected; it is kept as
    the text of the descriptor. *)
Record IdlField : Type := {
  field_name : string;
  field_type : string
}.

Record IdlInstruction : Type := {
  name : string;
  accounts : list IdlAccountItem;
  args : option (list IdlField)          (* [None]: the property is missing *)
}.

(** What the IDL map of the simulator may hold for a program ([any]): a
    null value, or a document whose [instructions] may be missing. *)
Inductive Idl : Type :=
| IdlNull
| IdlDoc (instructions : option (list IdlInstruction)).

(** The two instruction shapes the decoder accepts: a compiled instruction
    (account indexes) and a [TransactionInstruction] (account metas). *)
Record AccountMeta : Type := {
  meta_pubkey : PublicKey;
  meta_isSigner : bool;
  meta_isWritable : bool
}.

Inductive Instruction : Type :=
| Compiled (programIdIndex : nat) (accountIndexes : list nat) (data : list byte)
| WithKeys (programId : PublicKey) (keys : list AccountMeta) (data : list byte).

Definition ix_data (i : Instruction) : list byte :=
  match i with
  | Compiled _ _ d => d
  | WithKeys _ _ d => d
  end.

(** [Buffer.compare(a, b)]: -1, 0 or 1, bytes compared as unsigned *)
Fixpoint bufferCompare (a b : list byte) : Z :=
  match a, b with
  | [], [] => 0
  | [], _ :: _ => -1
  | _ :: _, [] => 1
  | x :: a', y :: b' =>
      match N.compare (Byte.to_N x) (Byte.to_N y) with
      | Lt => -1
      | Gt => 1
      | Eq => bufferCompare a' b'
      end
  end%Z.

(** The loop of lines 150-152 from index [i] on; it runs while
    [i < nameBytes.length && i < 8], hence at most [8 - i] times, and [n]
    counts the iterations that are left. *)
Fixpoint copyName (nameBytes placeholder : list byte) (i n : nat) : list byte :=
  match n with
  | O => placeholder
  | S n' =>
      if Nat.ltb i (List.length nameBytes) && Nat.ltb i 8 then
        copyName nameBytes
                 (<[i := default x00 (nameBytes !! i)]> placeholder)
                 (S i) n'
      else placeholder
  end.

(** lines 139-155 *)
Definition deriveInstructionDiscriminator (ixName : string) : list byte :=
  let nameBytes := list_byte_of_string ixName in       (* Buffer.from(ixName, 'utf8') *)
  let placeholder := replicate 8 x00 in         (* Buffer.alloc(8) *)
  copyName nameBytes placeholder 0 8.

(** the [for ... of] loop of lines 124-129 *)
Fixpoint findIn (ixs : list IdlInstruction) (discriminator : list byte)
  : option IdlInstruction :=
  match ixs with
  | [] => None
  | ix :: rest =>
      let ixDiscriminator := deriveInstructionDiscriminator (name ix) in
      if Z.eqb (bufferCompare discriminator ixDiscriminator) 0 then Some ix
      else findIn rest discriminator
  end.

(** lines 119-132; reading [instructions] of a null IDL is a [TypeError] *)
Definition findInstructionByDiscriminator (idl : Idl) (discriminator : list byte)
  : outcome (option IdlInstruction) :=
  match idl with
  | IdlNull =>
      Throw (JsError "Cannot read properties of null (reading 'instructions')")
  | IdlDoc None => Ok None
  | IdlDoc (Some ixs) => Ok (findIn ixs discriminator)
  end.

(** [buf.toString('hex')] *)
Definition hexDigit (n : N) : ascii :=
  ascii_of_N (if (n <? 10)%N then 48 + n else 87 + n)%N.

Fixpoint toHex (buf : list byte) : string :=
  match buf with
  | [] => EmptyString
  | b :: rest =>
      let n := Byte.to_N b in
      String (hexDigit (n / 16)%N) (String (hexDigit (n mod 16)%N) (toHex rest))
  end.

(** the value [decodeAnchorArgs] returns: [{}] or [{ rawData: hex }] *)
Inductive DecodedArgs : Type :=
| EmptyArgs
| RawData (hex : string).

(** lines 163-175 *)
Definition decodeAnchorArgs (data : list byte) (ix : IdlInstruction) : DecodedArgs :=
  match args ix with
  | None => EmptyArgs
  | Some [] => EmptyArgs
  | Some (_ :: _) => RawData (toHex data)
  end.

Record DecodedInstruction : Type := {
  dec_name : string;
  dec_ix : IdlInstruction;
  dec_args : DecodedArgs
}.

(** lines 82-96: the account list of the instruction, resolved against the
    account keys of the transaction; an index out of range gives
    [undefined] ([None]), which [filter(a => a !== null)] keeps.  The list
    is computed and then not used. *)
Definition resolveAccounts (instruction : Instruction) (accountKeys : list PublicKey)
  : list (option PublicKey) :=
  match instruction with
  | Compiled _ idxs _ => (fun idx : nat => accountKeys !! idx) <$> idxs
  | WithKeys _ keys _ => (fun k => Some (meta_pubkey k)) <$> keys
  end.

(** the [try] block, lines 67-106 *)
Definition decodeAnchorInstruction_try
    (instruction : Instruction) (idl : Idl) (accountKeys : list PublicKey)
  : outcome (option DecodedInstruction) :=
  let data := ix_data instruction in
  let discriminator := take DISCRIMINATOR_SIZE data in
  matchingIx ← findInstructionByDiscriminator idl discriminator;
  match matchingIx with
  | None => Ok None
  | Some matchingIx =>
      let accounts := resolveAccounts instruction accountKeys in
      let argsData := drop DISCRIMINATOR_SIZE data in
      let args := decodeAnchorArgs argsData matchingIx in
      Ok (Some {| dec_name := name matchingIx; dec_ix := matchingIx; dec_args := args |})
  end.

(** lines 61-111: the [catch] turns every exception into [null] *)
Definition decodeAnchorInstruction
    (instruction : Instruction) (idl : Idl) (accountKeys : list PublicKey)
  : outcome (option DecodedInstruction) :=
  match decodeAnchorInstruction_try instruction idl accountKeys with
  | Ok r => Ok r
  | Throw _ => Ok None
  end.

End AnchorUtils.

(** ** src/core/simulator.ts *)

Module Simulator.
Import JsString AnchorUtils LogParser.

(** *** Data: [src/utils/types.ts] and the RPC records the code reads *)

Record AccountInfo : Type := {
  lamports : N;
  data : list byte;
  owner : PublicKey;
  executable : bool;
  rentEpoch : option N
}.

Record AccountState : Type := {
  state_pubkey : PublicKey;
  account : AccountInfo;
  label : option string;
  programOwner : option string
}.

Record Changes : Type := {
  balance : option (N * N);
  dataChanged : option bool;
  ownerChanged : option (string * string);
  executableChanged : option (bool * bool);
  rentEpochChanged : option (N * N)
}.

Record AccountDiff : Type := {
  pubkey : PublicKey;
  before : option AccountState;           (* [AccountState | null] *)
  after : option AccountState;
  changes : Changes
}.

Record DebugInstruction : Type := {
  programId : PublicKey;
  programName : option string;
  instructionName : option string;
  instructionIndex : nat;
  logs : list string;
  accountDiffs : list AccountDiff;
  anchorInstruction : option IdlInstruction;
  anchorArgs : option DecodedArgs
}.

Record DebugTransaction : Type := {
  signature : option string;
  success : bool;
  error : option string;
  instructions : list DebugInstruction;
  timestamp : option N;
  slot : option N;
  network : option string
}.

Record SimulateOptions : Type := {
  commitment : option string;
  signers : option (list string);
  skipNetworkFallback : bool               (* a missing property is falsy *)
}.

(** A compiled instruction of a legacy message. *)
Record MessageInstruction : Type := {
  programIdIndex : nat;
  accounts : list nat;
  ix_bytes : list byte
}.

(** The message of a fetched transaction: a legacy message (the
    [LegacyMessage] interface of lines 27-32, which has [accountKeys] and
    [instructions]) or a versioned one (neither property; its keys come
    from [getAccountKeys().staticAccountKeys]). *)
Inductive Message : Type :=
| Legacy (accountKeys : list PublicKey) (instrs : list MessageInstruction)
         (isAccountSigner isAccountWritable : nat -> bool)
| Versioned (staticAccountKeys : list PublicKey).

Record TransactionResponse : Type := {
  tx_slot : N;
  blockTime : option N;                    (* [number | null] *)
  message : Message
}.

(** The transaction rebuilt for the dry run. *)
Record KeyMeta : Type := {
  key_pubkey : option PublicKey;           (* [undefined] for an index out of range *)
  key_isSigner : bool;
  key_isWritable : bool
}.

Record TransactionInstruction : Type := {
  ti_programId : option PublicKey;
  ti_keys : list KeyMeta;
  ti_data : list byte
}.

Record Transaction : Type := {
  recentBlockhash : string;
  feePayer : option PublicKey;
  tx_instructions : list TransactionInstruction
}.

(** [SimulatedTransactionResponse]: the code reads [err] and [logs]; the
    response also carries the accounts after the dry run, which the code
    never reads. *)
Record SimulatedTransactionResponse : Type := {
  err : js_value;
  sim_logs : option (list string);
  sim_accounts : option (list (option AccountInfo))
}.

Record Connection : Type := {
  endpoint : string;
  conn_commitment : string
}.

(** The fields of a [TransactionSimulator]. *)
Record TransactionSimulator : Type := {
  connection : Connection;
  anchorIdlMap : gmap string Idl;
  rpcUrl : string
}.

(** *** The collaborators

    The RPC endpoints, keyed by URL, and the two functions of
    [src/utils/lookup.ts] that read the user's mapping files.  Each
    request either returns or throws. *)
Record World : Type := {
  rpc_getTransaction : string -> string -> string -> outcome (option TransactionResponse);
  rpc_getAccountInfo : string -> PublicKey -> outcome (option AccountInfo);
  rpc_getLatestBlockhash : string -> string -> outcome string;
  rpc_simulateTransaction :
    string -> Transaction -> option (list string) -> outcome SimulatedTransactionResponse;
  getProgramName : string -> string;
  getAccountLabel : PublicKey -> AccountInfo -> option string
}.

(** The requests a run sends, in order. *)
Inductive RpcCall : Type :=
| GetTransaction (url sig : string)
| GetAccountInfo (url : string) (key : PublicKey)
| GetLatestBlockhash (url : string)
| SimulateTransaction (url : string).

Definition call_url (c : RpcCall) : string :=
  match c with
  | GetTransaction u _ | GetAccountInfo u _
  | GetLatestBlockhash u | SimulateTransaction u => u
  end.

(** *** Effects: the simulator object, the request log, exceptions *)

Record Run : Type := {
  this : TransactionSimulator;
  requests : list RpcCall
}.

Definition M (A : Type) : Type := Run -> outcome A * Run.

#[global] Instance M_ret : MRet M := fun _ a r => (Ok a, r).
#[global] Instance M_bind : MBind M := fun _ _ f m r =>
  match m r with
  | (Ok a, r') => f a r'
  | (Throw e, r') => (Throw e, r')
  end.

Definition throw {A} (e : js_value) : M A := fun r => (Throw e, r).

Definition lift {A} (o : outcome A) : M A := fun r => (o, r).

(** [try { m } catch (e) { h e }] *)
Definition tryCatch {A} (m : M A) (h : js_value -> M A) : M A := fun r =>
  match m r with
  | (Ok a, r') => (Ok a, r')
  | (Throw e, r') => h e r'
  end.

Definition getThis : M TransactionSimulator := fun r => (Ok (this r), r).

(** [this.connection = c; this.rpcUrl = url] *)
Definition switchNetwork (c : Connection) (url : string) : M unit := fun r =>
  (Ok tt,
   {| this := {| connection := c;
                 anchorIdlMap := anchorIdlMap (this r);
                 rpcUrl := url |};
      requests := requests r |}).

Definition request {A} (c : RpcCall) (answer : outcome A) : M A := fun r =>
  (answer, {| this := this r; requests := requests r ++ [c] |}).

(** *** Pure helpers *)

Definition truthy (v : js_value) : bool :=
  match v with
  | JsNull => false
  | JsStr s => JsString.truthy s
  | JsBool b => b
  | JsObj _ _ => true
  end.

(** lines 39-64 *)
Definition formatError (err : js_value) : string :=
  match err with
  | JsNull => "Unknown error"
  | JsStr s => s
  | JsObj msg json =>
      match msg with
      | Some m =>
          if JsString.truthy m then m
          else default "[object Object]" json
      | None => default "[object Object]" json
      end
  | JsBool b => if b then "true" else "false"
  end.

(** lines 534-544 *)
Definition getNetworkName (rpcUrl : string) : string :=
  if includes "mainnet" rpcUrl then "mainnet"
  else if includes "devnet" rpcUrl then "devnet"
  else if includes "testnet" rpcUrl then "testnet"
  else "unknown network".

Definition mainnetUrl : string := "https://api.mainnet-beta.solana.com".
Definition devnetUrl : string := "https://api.devnet.solana.com".
Definition testnetUrl : string := "https://api.testnet.solana.com".

(** [options.commitment as Finality || 'confirmed'] *)
Definition commitmentOf (options : SimulateOptions) : string :=
  match commitment options with
  | Some c => if JsString.truthy c then c else "confirmed"
  | None => "confirmed"
  end.

Definition isSome {A} (o : option A) : bool :=
  match o with Some _ => true | None => false end.

(** the constructor, lines 79-83 *)
Definition newSimulator (url : string) (idls : gmap string Idl)
  : TransactionSimulator :=
  {| rpcUrl := url;
     connection := {| endpoint := url; conn_commitment := "confirmed" |};
     anchorIdlMap := idls |}.

(** *** The orchestrator *)

Section Orchestrator.
Variable w : World.

Definition getTransaction (c : Connection) (sig commit : string)
  : M (option TransactionResponse) :=
  request (GetTransaction (endpoint c) sig)
          (rpc_getTransaction w (endpoint c) sig commit).

Definition getAccountInfo (c : Connection) (key : PublicKey)
  : M (option AccountInfo) :=
  request (GetAccountInfo (endpoint c) key)
          (rpc_getAccountInfo w (endpoint c) key).

Definition getLatestBlockhash (c : Connection) (commit : string) : M string :=
  request (GetLatestBlockhash (endpoint c))
          (rpc_getLatestBlockhash w (endpoint c) commit).

Definition simulateTransaction (c : Connection) (tx : Transaction)
    (sgn : option (list string)) : M SimulatedTransactionResponse :=
  request (SimulateTransaction (endpoint c))
          (rpc_simulateTransaction w (endpoint c) tx sgn).

(** One fallback block: lines 107-124 with the main-net URL, 129-146
    with the dev-net URL, 152-169 with the test-net URL; the three are
    the same text up to the URL.  [transaction] is the variable of the
    caller, which keeps its value when the request throws. *)
Definition tryNetwork (url sig : string) (options : SimulateOptions)
    (transaction : option TransactionResponse)
  : M (option TransactionResponse) :=
  self ← getThis;
  if bool_decide (rpcUrl self ≠ url) then
    let newConnection := {| endpoint := url; conn_commitment := "confirmed" |} in
    tryCatch
      (found ← getTransaction newConnection sig (commitmentOf options);
       match found with
       | Some _ => _ ← switchNetwork newConnection url; mret found
       | None => mret found
       end)
      (fun _ => mret transaction)
  else mret transaction.

(** lines 96-175 *)
Definition locateTransaction (sig : string) (options : SimulateOptions)
  : M TransactionResponse :=
  self ← getThis;
  transaction ← getTransaction (connection self) sig (commitmentOf options);
  transaction ←
    (if negb (isSome transaction) && negb (skipNetworkFallback options) then
       transaction ← tryNetwork mainnetUrl sig options transaction;
       transaction ←
         (if negb (isSome transaction)
          then tryNetwork devnetUrl sig options transaction
          else mret transaction);
       if negb (isSome transaction)
       then tryNetwork testnetUrl sig options transaction
       else mret transaction
     else mret transaction);
  match transaction with
  | None => throw (JsError ("Transaction " +:+ sig +:+ " not found on any network"))
  | Some t => mret t
  end.

(** the body of the loop of lines 187-204 *)
Definition fetchAccount (pre : gmap string AccountState) (key : PublicKey)
  : M (gmap string AccountState) :=
  self ← getThis;
  tryCatch
    (accountInfo ← getAccountInfo (connection self) key;
     match accountInfo with
     | Some info =>
         mret (<[key := {| state_pubkey := key;
                           account := info;
                           programOwner := Some (owner info);
                           label := getAccountLabel w key info |}]> pre)
     | None => mret pre
     end)
    (fun _ => mret pre).

Fixpoint fetchAccounts (pre : gmap string AccountState) (keys : list PublicKey)
  : M (gmap string AccountState) :=
  match keys with
  | [] => mret pre
  | key :: rest => pre' ← fetchAccount pre key; fetchAccounts pre' rest
  end.

(** lines 476-489, one instruction *)
Definition rebuildInstruction (accountKeys : list PublicKey)
    (isSigner isWritable : nat -> bool) (ix : MessageInstruction)
  : TransactionInstruction :=
  {| ti_programId := accountKeys !! programIdIndex ix;
     ti_keys :=
       imap (fun idx key => {| key_pubkey := key;
                               key_isSigner := isSigner idx;
                               key_isWritable := isWritable idx |})
            ((fun idx : nat => accountKeys !! idx) <$> accounts ix);
     ti_data := ix_bytes ix |}.

(** lines 446-501 *)
Definition simulateFromSignature (sig : string) (options : SimulateOptions)
  : M SimulatedTransactionResponse :=
  self ← getThis;
  transaction ← getTransaction (connection self) sig (commitmentOf options);
  match transaction with
  | None => throw (JsError ("Transaction " +:+ sig +:+ " not found"))
  | Some transaction =>
      blockhash ← getLatestBlockhash (connection self) (commitmentOf options);
      let tx :=
        match message transaction with
        | Legacy keys ixs isSigner isWritable =>
            {| recentBlockhash := blockhash;
               feePayer := keys !! 0;
               tx_instructions := rebuildInstruction keys isSigner isWritable <$> ixs |}
        | Versioned keys =>
            {| recentBlockhash := blockhash;
               feePayer := keys !! 0;
               tx_instructions := [] |}
        end in
      simulateTransaction (connection self) tx (signers options)
  end.

(** lines 262-286, one account index: the diff that is pushed, if any.
    Reading [toString] of an undefined key is a [TypeError]. *)
Definition accountDiffFor (accountKeys : list PublicKey)
    (preTransactionAccounts : gmap string AccountState) (accountIdx : nat)
  : outcome (option AccountDiff) :=
  match accountKeys !! accountIdx with
  | None => Throw (JsError "Cannot read properties of undefined (reading 'toString')")
  | Some key =>                          (* [account] in the source *)
      let preState := preTransactionAccounts !! key in
      let postState := preState in
      match preState, postState with
      | Some pre, Some post =>
          Ok (Some
            {| pubkey := key;
               before := preState;
               after := postState;
               changes :=
                 {| dataChanged := Some false;
                    balance :=
                      if negb (N.eqb (lamports (account pre))
                                     (lamports (account post)))
                      then Some (lamports (account pre), lamports (account post))
                      else None;
                    ownerChanged := None;
                    executableChanged := None;
                    rentEpochChanged := None |} |})
      | _, _ => Ok None
      end
  end.

(** the loop of lines 261-287; [diffs] is [debugInstruction.accountDiffs] *)
Fixpoint accountDiffsLoop (accountKeys : list PublicKey)
    (preTransactionAccounts : gmap string AccountState)
    (diffs : list AccountDiff) (idxs : list nat) : outcome (list AccountDiff) :=
  match idxs with
  | [] => Ok diffs
  | accountIdx :: rest =>
      d ← accountDiffFor accountKeys preTransactionAccounts accountIdx;
      accountDiffsLoop accountKeys preTransactionAccounts
        (match d with Some diff => diffs ++ [diff] | None => diffs end) rest
  end.

(** lines 229-290: the callback of [message.instructions.forEach] *)
Definition debugInstructionFor (self : TransactionSimulator)
    (accountKeys : list PublicKey)
    (preTransactionAccounts : gmap string AccountState)
    (logsByInstruction : gmap nat (list string))
    (instruction : MessageInstruction) (index : nat)
  : outcome DebugInstruction :=
  match accountKeys !! programIdIndex instruction with
  | None => Throw (JsError "Cannot read properties of undefined (reading 'toString')")
  | Some programId =>
      let programName := getProgramName w programId in
      let decoded :=
        match anchorIdlMap self !! programId with
        | Some idl =>
            match decodeAnchorInstruction
                    (Compiled (programIdIndex instruction) (accounts instruction)
                              (ix_bytes instruction))
                    idl accountKeys with
            | Ok r => r
            | Throw _ => None
            end
        | None => None
        end in
      diffs ← accountDiffsLoop accountKeys preTransactionAccounts []
                               (accounts instruction);
      Ok {| programId := programId;
            programName := Some programName;
            instructionIndex := index;
            logs := default [] (logsByInstruction !! index);
            accountDiffs := diffs;
            instructionName := dec_name <$> decoded;
            anchorInstruction := dec_ix <$> decoded;
            anchorArgs := dec_args <$> decoded |}
  end.

(** [forEach((instruction, index) => ...)] from position [index] on;
    [done] is [debugTransaction.instructions] so far *)
Fixpoint forEachInstruction (self : TransactionSimulator)
    (accountKeys : list PublicKey)
    (preTransactionAccounts : gmap string AccountState)
    (logsByInstruction : gmap nat (list string))
    (done : list DebugInstruction)
    (ixs : list MessageInstruction) (index : nat)
  : outcome (list DebugInstruction) :=
  match ixs with
  | [] => Ok done
  | instruction :: rest =>
      d ← debugInstructionFor self accountKeys preTransactionAccounts
                              logsByInstruction instruction index;
      forEachInstruction self accountKeys preTransactionAccounts
                         logsByInstruction (done ++ [d]) rest (S index)
  end.

Definition messageAccountKeys (m : Message) : list PublicKey :=
  match m with
  | Legacy keys _ _ _ => keys
  | Versioned keys => keys
  end.

(** lines 211-304: the trace built from the simulation result *)
Definition assemble (self : TransactionSimulator) (sig : string)
    (transaction : TransactionResponse)
    (preTransactionAccounts : gmap string AccountState)
    (simulationResult : SimulatedTransactionResponse)
  : outcome DebugTransaction :=
  let accountKeys := messageAccountKeys (message transaction) in
  let simLogs := default [] (sim_logs simulationResult) in
  logsByInstruction ← parseTransactionLogs simLogs;
  instrs ←
    match message transaction with
    | Legacy _ ixs _ _ =>
        forEachInstruction self accountKeys preTransactionAccounts
                           logsByInstruction [] ixs 0
    | Versioned _ =>
        Ok [ {| programId := "11111111111111111111111111111111";
                programName := Some "System Program";
                instructionIndex := 0;
                logs := simLogs;
                accountDiffs := [];
                instructionName := None;
                anchorInstruction := None;
                anchorArgs := None |} ]
    end;
  Ok {| signature := Some sig;
        success := negb (truthy (err simulationResult));
        error := if truthy (err simulationResult)
                 then Some (formatError (err simulationResult)) else None;
        instructions := instrs;
        timestamp := match blockTime transaction with
                     | Some t => if N.eqb t 0 then None else Some t
                     | None => None
                     end;
        slot := Some (tx_slot transaction);
        network := Some (getNetworkName (rpcUrl self)) |}.

(** the [try] block of [debugSignature], lines 96-304 *)
Definition debugSignature_try (sig : string) (options : SimulateOptions)
  : M DebugTransaction :=
  transaction ← locateTransaction sig options;
  preTransactionAccounts ←
    fetchAccounts ∅ (messageAccountKeys (message transaction));
  simulationResult ← simulateFromSignature sig options;
  self ← getThis;
  lift (assemble self sig transaction preTransactionAccounts simulationResult).

(** the value the [catch] returns, lines 307-312 *)
Definition failure (sig : string) (e : js_value) : DebugTransaction :=
  {| signature := Some sig;
     success := false;
     error := Some (formatError e);
     instructions := [];
     timestamp := None;
     slot := None;
     network := None |}.

(** lines 91-314 *)
Definition debugSignature (sig : string) (options : SimulateOptions)
  : M DebugTransaction :=
  tryCatch (debugSignature_try sig options)
           (fun e => mret (failure sig e)).

End Orchestrator.

End Simulator.

(** ** Predicates and data used in the statements *)

Module Spec.
Import JsString Regex LogParser AnchorUtils.

(** A line that opens a bucket: it passes the test of line 17, the
    pattern of line 18 matches and the depth it captures is ['1']. *)
Definition opensBucket (log : string) : bool :=
  startsWith "Program " log && includes " invoke [" log &&
  match search invokeRe log with
  | Some (depth :: _) => truthy depth && String.eqb depth "1"
  | _ => false
  end.

(** the number [K] of such lines in a stream *)
Definition bucketCount (logs : list string) : nat :=
  List.length (List.filter opensBucket logs).

(** the instructions an IDL declares *)
Definition declared (idl : Idl) : list IdlInstruction :=
  match idl with
  | IdlDoc (Some ixs) => ixs
  | _ => []
  end.

(** the stream of the scenario of the specification *)
Definition scenario : list string :=
  ["Program P invoke [1]"; "Program log: Success";
   "Program P consumed 200 of 1000 compute units"; "Program P success"].

(** a stream without any failure marker and without a success line *)
Definition quietStream : list string :=
  ["Program P invoke [1]"; "Program P success"].

(** a stream whose second line passes the test of line 17 although the
    pattern of line 18 does not match it *)
Definition chattyStream : list string :=
  ["Program P invoke [1]"; "Program log: about to invoke [cpi]";
   "Program log: done"].

Definition transferIx : IdlInstruction :=
  {| name := "transfer";
     accounts := [];
     args := Some [ {| field_name := "amount"; field_type := "u64" |} ] |}.

Definition transferIdl : Idl := IdlDoc (Some [transferIx]).

(** the discriminator of [transfer] followed by three bytes, where the
    layout asks for eight *)
Definition truncatedPayload : list byte :=
  deriveInstructionDiscriminator "transfer" ++ [xe8; x03; x00].

(** a payload that starts with the bytes of another name *)
Definition unknownPayload : list byte :=
  list_byte_of_string "withdraw" ++ [x01].

End Spec.

(** ** The fallback policy in the words of the specification *)

Module FallbackSpec.
Import Simulator.

(** the fixed ordered list of well-known networks *)
Definition fallbackNetworks : list string := [mainnetUrl; devnetUrl; testnetUrl].

(** ... skipping the one already tried *)
Definition candidates (tried : string) : list string :=
  filter (fun n => tried ≠ n) fallbackNetworks.

(** Probe the networks in order and stop at the first hit: the networks
    that were probed, and the network that has the transaction with the
    record it returned.  A probe that throws counts as a miss. *)
Fixpoint probe (w : World) (sig commit : string) (nets : list string)
  : list string * option (string * TransactionResponse) :=
  match nets with
  | [] => ([], None)
  | n :: rest =>
      match rpc_getTransaction w n sig commit with
      | Ok (Some t) => ([n], Some (n, t))
      | _ => let '(probed, hit) := probe w sig commit rest in (n :: probed, hit)
      end
  end.

(** the state of the simulator once it has switched to network [n] *)
Definition switchedTo (self : TransactionSimulator) (n : string)
  : TransactionSimulator :=
  {| connection := {| endpoint := n; conn_commitment := "confirmed" |};
     anchorIdlMap := anchorIdlMap self;
     rpcUrl := n |}.


End FallbackSpec.

(** ** A concrete network, used to run the orchestrator *)

Module Scenario.
Import Simulator.

Definition localUrl : string := "http://localhost:8899".
Definition sigB : string := "sigB".

Definition payer : string := "Payer".
Definition acctX : string := "AccountX".
Definition acctY : string := "AccountY".
Definition prog : string := "Prog1".

Definition infoOf (lam : N) (own : string) (exe : bool) : AccountInfo :=
  {| lamports := lam; data := []; owner := own; executable := exe;
     rentEpoch := Some 0%N |}.

(** a legacy transaction of two instructions of [Prog1]: the first one
    touches [AccountX] and [AccountY], the second one [AccountX] and the
    payer *)
Definition txB : TransactionResponse :=
  {| tx_slot := 42;
     blockTime := Some 1700000000%N;
     message :=
       Legacy [payer; acctX; acctY; prog]
              [ {| programIdIndex := 3; accounts := [1; 2]; ix_bytes := [] |};
                {| programIdIndex := 3; accounts := [1; 0]; ix_bytes := [] |} ]
              (fun i => Nat.eqb i 0) (fun i => Nat.ltb i 3) |}.

Definition simLogs : list string :=
  ["Program Prog1 invoke [1]"; "Program log: close AccountX";
   "Program Prog1 success";
   "Program Prog1 invoke [1]"; "Program log: Success";
   "Program Prog1 success"].

(** what the dry run answers; the accounts after it are listed in the
    order of the account keys of the transaction *)
Definition simResponse : SimulatedTransactionResponse :=
  {| err := JsNull;
     sim_logs := Some simLogs;
     sim_accounts :=
       Some [ Some (infoOf 995 "11111111" false);
              None;
              Some (infoOf 505 prog false);
              Some (infoOf 1 "BPFLoader" true) ] |}.

(** The transaction is known to dev-net only.  Before the dry run the
    payer holds 1000 lamports, [AccountX] holds 500 and [AccountY] does not
    exist; the dry run takes 5 lamports from the payer, closes [AccountX]
    and creates [AccountY]. *)
Definition world : World :=
  {| rpc_getTransaction := fun url sig _ =>
       if String.eqb url devnetUrl && String.eqb sig sigB
       then Ok (Some txB) else Ok None;
     rpc_getAccountInfo := fun url key =>
       if String.eqb url devnetUrl then
         if String.eqb key payer then Ok (Some (infoOf 1000 "11111111" false))
         else if String.eqb key acctX then Ok (Some (infoOf 500 prog false))
         else if String.eqb key prog then Ok (Some (infoOf 1 "BPFLoader" true))
         else Ok None
       else Ok None;
     rpc_getLatestBlockhash := fun _ _ => Ok "blockhash";
     rpc_simulateTransaction := fun _ _ _ => Ok simResponse;
     getProgramName := fun id => id;
     getAccountLabel := fun _ _ => None |}.

Definition defaultOptions : SimulateOptions :=
  {| commitment := None; signers := None; skipNetworkFallback := false |}.

(** a simulator built for [url], before any request *)
Definition fresh (url : string) : Run :=
  {| this := newSimulator url ∅; requests := [] |}.

Definition stateX : AccountState :=
  {| state_pubkey := acctX;
     account := infoOf 500 prog false;
     label := None;
     programOwner := Some prog |}.

(** the diff the orchestrator builds for [AccountX] *)
Definition diffX : AccountDiff :=
  {| pubkey := acctX;
     before := Some stateX;
     after := Some stateX;
     changes := {| balance := None; dataChanged := Some false;
                   ownerChanged := None; executableChanged := None;
                   rentEpochChanged := None |} |}.

Definition statePayer : AccountState :=
  {| state_pubkey := payer;
     account := infoOf 1000 "11111111" false;
     label := None;
     programOwner := Some "11111111" |}.

(** the diff the orchestrator builds for the payer *)
Definition diffPayer : AccountDiff :=
  {| pubkey := payer;
     before := Some statePayer;
     after := Some statePayer;
     changes := {| balance := None; dataChanged := Some false;
                   ownerChanged := None; executableChanged := None;
                   rentEpochChanged := None |} |}.

Definition instructionB (index : nat) (lines : list string)
    (diffs : list AccountDiff) : DebugInstruction :=
  {| programId := prog;
     programName := Some prog;
     instructionName := None;
     instructionIndex := index;
     logs := lines;
     accountDiffs := diffs;
     anchorInstruction := None;
     anchorArgs := None |}.

(** the trace the orchestrator returns for [sigB] *)
Definition traceB : DebugTransaction :=
  {| signature := Some sigB;
     success := true;
     error := None;
     instructions :=
       [ instructionB 0 [] [diffX];
         instructionB 1 ["Program Prog1 invoke [1]";
                         "Program log: close AccountX";
                         "Program Prog1 success"]
                      [diffX; diffPayer] ];
     timestamp := Some 1700000000%N;
     slot := Some 42%N;
     network := Some "devnet" |}.

End Scenario.

(** ** Invariants of the parser and of a run *)

Module Invariants.
Import LogParser Simulator.

(** The state between two lines: the buckets are keyed [1..current], and
    the parser is inside an instruction only once a bucket exists. *)
Definition wellKeyed (st : parse_state) : Prop :=
  (∀ k : nat, is_Some (instructionLogs st !! k) ↔ 1 ≤ k ≤ currentInstruction st) ∧
  (inInstruction st = true → 1 ≤ currentInstruction st).

(** every request of [cs] goes to the endpoint [n] *)
Definition addressedTo (n : string) (cs : list RpcCall) : Prop :=
  Forall (fun c => call_url c = n) cs.

(** every snapshot of [pre] is what the endpoint [url] answered for its key *)
Definition fetched (w : World) (url : string) (pre : gmap string AccountState)
  : Prop :=
  ∀ (k : string) (s : AccountState), pre !! k = Some s →
    rpc_getAccountInfo w url k = Ok (Some (account s)) ∧
    s = {| state_pubkey := k;
           account := account s;
           label := getAccountLabel w k (account s);
           programOwner := Some (owner (account s)) |}.

(** What holds of every diff the loop of lines 261-287 pushes: its
    [before] is the snapshot fetched for its key, its [after] is that same
    snapshot, both are present, and no balance change is recorded. *)
Definition placeholderDiff (pre : gmap string AccountState) (diff : AccountDiff)
  : Prop :=
  pre !! pubkey diff = before diff ∧
  after diff = before diff ∧
  is_Some (before diff) ∧
  balance (changes diff) = None.

End Invariants.

(** ** src/utils/log-parser.ts, the remaining functions *)

Module LogParserRest.
Import JsString Regex LogParser.

(** the class [\w]: [A-Za-z0-9_] *)
Definition isWordChar (c : ascii) : bool :=
  let n := N_of_ascii c in
  (((48 <=? n) && (n <=? 57)) || ((65 <=? n) && (n <=? 90)) ||
   ((97 <=? n) && (n <=? 122)) || (n =? 95))%N.

Fixpoint wordRun (s : string) : nat :=
  match s with
  | String c s' => if isWordChar c then S (wordRun s') else O
  | EmptyString => O
  end.

(** [/Program (\w+) invoke/] at offset 0: [\w+] is greedy and gives
    characters back until [" invoke"] follows *)
Definition programIdHere (s : string) : option string :=
  if startsWith "Program " s then
    let rest := drop 8 s in
    backtrack
      (fun n => if startsWith " invoke" (drop n rest) then Some (take n rest)
                else None)
      (wordRun rest)
  else None.

(** lines 45-49: the capture of the leftmost match, or [undefined] *)
Fixpoint extractProgramIdFromLog (logLine : string) : option string :=
  match programIdHere logLine with
  | Some id => Some id
  | None => match logLine with
            | EmptyString => None
            | String _ rest => extractProgramIdFromLog rest
            end
  end.

(** [s.replace(pat, '')] with a text pattern: the first occurrence goes *)
Fixpoint removeFirst (pat s : string) : string :=
  if startsWith pat s then drop (String.length pat) s
  else match s with
       | EmptyString => EmptyString
       | String c s' => String c (removeFirst pat s')
       end.

Definition ofBytes (codes : list N) : string :=
  fold_right (fun n s => String (ascii_of_N n) s) EmptyString codes.

(** The white space and line terminators that [trim] removes, in UTF-8:
    U+0009..U+000D, U+0020, U+00A0, U+1680, U+2000..U+200A, U+2028, U+2029,
    U+202F, U+205F, U+3000, U+FEFF. *)
Definition whiteSpace : list string :=
  ofBytes <$>
    [ [9]; [10]; [11]; [12]; [13]; [32]; [194; 160]; [225; 154; 128];
      [226; 128; 128]; [226; 128; 129]; [226; 128; 130]; [226; 128; 131];
      [226; 128; 132]; [226; 128; 133]; [226; 128; 134]; [226; 128; 135];
      [226; 128; 136]; [226; 128; 137]; [226; 128; 138]; [226; 128; 168];
      [226; 128; 169]; [226; 128; 175]; [226; 129; 159]; [227; 128; 128];
      [239; 187; 191] ]%N.

(** the length of the entry of [ws] that [s] starts with, if any *)
Fixpoint leadingLength (ws : list string) (s : string) : option nat :=
  match ws with
  | [] => None
  | w :: rest => if startsWith w s then Some (String.length w)
                 else leadingLength rest s
  end.

(** drops entries of [ws] from the start of [s] for as long as there is
    one; [skip] counts the bytes of the current entry still to drop *)
Fixpoint dropLeading (ws : list string) (skip : nat) (s : string) : string :=
  match skip, s with
  | S k, String _ s' => dropLeading ws k s'
  | S _, EmptyString => EmptyString
  | O, EmptyString => EmptyString
  | O, String _ s' =>
      match leadingLength ws s with
      | Some n => dropLeading ws (Nat.pred n) s'
      | None => s
      end
  end.

Fixpoint reverseOnto (s acc : string) : string :=
  match s with
  | EmptyString => acc
  | String c s' => reverseOnto s' (String c acc)
  end.

Definition reverse (s : string) : string := reverseOnto s EmptyString.

(** [s.trim()] *)
Definition trim (s : string) : string :=
  let s1 := dropLeading whiteSpace 0 s in
  reverse (dropLeading (reverse <$> whiteSpace) 0 (reverse s1)).

(** lines 56-64 *)
Fixpoint extractErrorFromLogs (logs : list string) : option string :=
  match logs with
  | [] => None
  | log :: rest =>
      if includes "Error:" log || includes "failed:" log
      then Some (trim (removeFirst "Program log: " log))
      else extractErrorFromLogs rest
  end.

(** the class [[1-9A-HJ-NP-Za-km-z]] *)
Definition isBase58 (c : ascii) : bool :=
  let n := N_of_ascii c in
  (((49 <=? n) && (n <=? 57)) ||
   ((65 <=? n) && (n <=? 72)) || ((74 <=? n) && (n <=? 78)) ||
   ((80 <=? n) && (n <=? 90)) ||
   ((97 <=? n) && (n <=? 107)) || ((109 <=? n) && (n <=? 122)))%N.

Fixpoint base58Run (s : string) : nat :=
  match s with
  | String c s' => if isBase58 c then S (base58Run s') else O
  | EmptyString => O
  end.

(** [log.match(/([1-9A-HJ-NP-Za-km-z]{32,44})/g)]: all the matches from
    left to right; a match takes as many characters as it can, up to 44, and
    the scan resumes behind it.  [skip] counts the characters of the current
    match still to pass. *)
Fixpoint matchAllBase58 (skip : nat) (s : string) : list string :=
  match s with
  | EmptyString => []
  | String _ s' =>
      match skip with
      | S k => matchAllBase58 k s'
      | O =>
          let n := Nat.min (base58Run s) 44 in
          if Nat.leb 32 n then take n s :: matchAllBase58 (Nat.pred n) s'
          else matchAllBase58 0 s'
      end
  end.

(** [set.add(x)] on a [Set] kept in insertion order *)
Definition setAdd (set : list string) (x : string) : list string :=
  if bool_decide (x ∈ set) then set else set ++ [x].

(** the callback of lines 112-116 on the matches of one line *)
Definition addMatches (set : list string) (matches : list string) : list string :=
  fold_left
    (fun acc m =>
       if Nat.leb 32 (String.length m) && Nat.leb (String.length m) 44
       then setAdd acc m else acc)
    matches set.

(** lines 104-122 *)
Definition extractAccountsFromLogs (logs : list string) : list string :=
  fold_left (fun set log => addMatches set (matchAllBase58 0 log)) logs [].

End LogParserRest.

(** ** What the grouper keeps, line by line *)

Module GroupingSpec.
Import JsString Regex LogParser LogParserRest Spec.

(** a line that passes the test of line 17 and that the pattern of line 18
    does not match *)
Definition unmatchedInvoke (log : string) : bool :=
  startsWith "Program " log && includes " invoke [" log &&
  negb match search invokeRe log with
       | Some (depth :: _) => truthy depth
       | _ => false
       end.

(** The lines that end up in a bucket, in order; [inside] tells whether a
    bucket is open. *)
Fixpoint keptLines (inside : bool) (logs : list string) : list string :=
  match logs with
  | [] => []
  | log :: rest =>
      if opensBucket log then log :: keptLines true rest
      else if inside && negb (unmatchedInvoke log) then log :: keptLines inside rest
      else keptLines inside rest
  end.

(** the buckets of keys [1..K], in the order of their keys *)
Definition bucketsInOrder (m : gmap nat (list string)) (K : nat)
  : list (list string) :=
  (fun k : nat => default [] (m !! k)) <$> seq 1 K.

(** a bucket: one opening line, then lines that open nothing *)
Definition wellFormedBucket (bucket : list string) : Prop :=
  ∃ (opener : string) (rest : list string),
    bucket = opener :: rest ∧ opensBucket opener = true ∧
    Forall (fun l => opensBucket l = false) rest.

(** every bucket of the state is an opening line followed by lines that
    open nothing *)
Definition bucketsOk (st : parse_state) : Prop :=
  ∀ (k : nat) (b : list string), instructionLogs st !! k = Some b → wellFormedBucket b.

(** an address as the scan reports it: 32 to 44 characters, all of them
    of the base-58 alphabet *)
Definition addressLike (a : string) : Prop :=
  32 ≤ String.length a ≤ 44 ∧ base58Run a = String.length a.

End GroupingSpec.

(** ** src/core/simulator.ts, [debugLocalTransaction] *)

Module LocalSimulator.
Import JsString AnchorUtils LogParser Simulator.

(** an instruction of a [Transaction] the caller built *)
Record LocalInstruction : Type := {
  li_programId : PublicKey;
  li_keys : list AccountMeta;
  li_data : list byte
}.

Record LegacyTransaction : Type := {
  lt_recentBlockhash : option string;
  lt_feePayer : option PublicKey;
  lt_instructions : list LocalInstruction
}.

(** the message of a [VersionedTransaction] *)
Record VersionedTransaction : Type := {
  vt_staticAccountKeys : list PublicKey;
  vt_compiledInstructions : list MessageInstruction
}.

Inductive LocalTransaction : Type :=
| IsLegacy (t : LegacyTransaction)          (* [transaction instanceof Transaction] *)
| IsVersioned (t : VersionedTransaction).

(** the options [debugLocalTransaction] and [simulateTransaction] read *)
Record LocalOptions : Type := {
  lo_signers : option (list string);
  replaceRecentBlockhash : bool;
  preflightCommitment : option string
}.

(** The collaborators: the world of [debugSignature], the two functions of
    the web3 library that build a message or a legacy transaction, and the
    dry run of a caller-built transaction. *)
Record LocalWorld : Type := {
  base : World;
  (** the static account keys of [transaction.compileMessage()] *)
  compileMessage : LegacyTransaction -> outcome (list PublicKey);
  (** [Transaction.from(transaction.serialize())] *)
  fromSerialized : VersionedTransaction -> outcome LegacyTransaction;
  rpc_simulateLocal :
    string -> LegacyTransaction -> option (list string) ->
    outcome SimulatedTransactionResponse
}.

Section Local.
Variable w : LocalWorld.

(** [options.preflightCommitment as Finality || 'confirmed'] *)
Definition preflightOf (options : LocalOptions) : string :=
  match preflightCommitment options with
  | Some c => if JsString.truthy c then c else "confirmed"
  | None => "confirmed"
  end.

Definition simulateLocal (c : Connection) (tx : LegacyTransaction)
    (sgn : option (list string)) : M SimulatedTransactionResponse :=
  request (SimulateTransaction (endpoint c))
          (rpc_simulateLocal w (endpoint c) tx sgn).

(** lines 509-532 *)
Definition simulateTransaction (transaction : LocalTransaction)
    (options : LocalOptions) : M SimulatedTransactionResponse :=
  self ← getThis;
  transaction ←
    (if replaceRecentBlockhash options then
       match transaction with
       | IsLegacy t =>
           blockhash ← getLatestBlockhash (base w) (connection self)
                                          (preflightOf options);
           mret (IsLegacy {| lt_recentBlockhash := Some blockhash;
                             lt_feePayer := lt_feePayer t;
                             lt_instructions := lt_instructions t |})
       | IsVersioned _ => mret transaction
       end
     else mret transaction);
  match transaction with
  | IsLegacy t => simulateLocal (connection self) t (lo_signers options)
  | IsVersioned v =>
      t ← lift (fromSerialized w v);
      simulateLocal (connection self) t None
  end.

(** the instructions the loop of lines 387-427 runs over: those of the
    transaction, or the compiled ones of the message mapped to
    [{programIdIndex, accounts, data}] *)
Inductive LoopInstruction : Type :=
| OfTransaction (i : LocalInstruction)
| OfMessage (i : MessageInstruction).

Definition loopInstructions (transaction : LocalTransaction) : list LoopInstruction :=
  match transaction with
  | IsLegacy t => OfTransaction <$> lt_instructions t
  | IsVersioned v => OfMessage <$> vt_compiledInstructions v
  end.

(** the instruction as [decodeAnchorInstruction] sees it *)
Definition decoderView (i : LoopInstruction) : Instruction :=
  match i with
  | OfTransaction li => WithKeys (li_programId li) (li_keys li) (li_data li)
  | OfMessage mi => Compiled (programIdIndex mi) (accounts mi) (ix_bytes mi)
  end.

(** lines 387-427, the callback *)
Definition localInstructionFor (self : TransactionSimulator)
    (accountKeys : list PublicKey) (logsByInstruction : gmap nat (list string))
    (instruction : LoopInstruction) (index : nat) : outcome DebugInstruction :=
  let programId :=
    match instruction with
    | OfTransaction li => Some (li_programId li)
    | OfMessage mi => accountKeys !! programIdIndex mi
    end in
  match programId with
  | None => Throw (JsError "Cannot read properties of undefined (reading 'toString')")
  | Some programId =>
      let programName := getProgramName (base w) programId in
      let decoded :=
        match anchorIdlMap self !! programId with
        | Some idl =>
            match decodeAnchorInstruction (decoderView instruction) idl accountKeys with
            | Ok r => r
            | Throw _ => None
            end
        | None => None
        end in
      Ok {| programId := programId;
            programName := Some programName;
            instructionIndex := index;
            logs := default [] (logsByInstruction !! index);
            accountDiffs := [];
            instructionName := dec_name <$> decoded;
            anchorInstruction := dec_ix <$> decoded;
            anchorArgs := dec_args <$> decoded |}
  end.

Fixpoint forEachLocal (self : TransactionSimulator)
    (accountKeys : list PublicKey) (logsByInstruction : gmap nat (list string))
    (done : list DebugInstruction) (ixs : list LoopInstruction) (index : nat)
  : outcome (list DebugInstruction) :=
  match ixs with
  | [] => Ok done
  | instruction :: rest =>
      d ← localInstructionFor self accountKeys logsByInstruction instruction index;
      forEachLocal self accountKeys logsByInstruction (done ++ [d]) rest (S index)
  end.

(** lines 358-429 *)
Definition assembleLocal (self : TransactionSimulator)
    (transaction : LocalTransaction) (accountKeys : list PublicKey)
    (simulationResult : SimulatedTransactionResponse) : outcome DebugTransaction :=
  logsByInstruction ← parseTransactionLogs (default [] (sim_logs simulationResult));
  instrs ← forEachLocal self accountKeys logsByInstruction []
                        (loopInstructions transaction) 0;
  Ok {| signature := None;
        success := negb (truthy (err simulationResult));
        error := if truthy (err simulationResult)
                 then Some (formatError (err simulationResult)) else None;
        instructions := instrs;
        timestamp := None;
        slot := None;
        network := None |}.

(** the [try] block, lines 327-429 *)
Definition debugLocalTransaction_try (transaction : LocalTransaction)
    (options : LocalOptions) : M DebugTransaction :=
  accountKeys ←
    match transaction with
    | IsLegacy t => lift (compileMessage w t)
    | IsVersioned v => mret (vt_staticAccountKeys v)
    end;
  preTransactionAccounts ← fetchAccounts (base w) ∅ accountKeys;
  simulationResult ← simulateTransaction transaction options;
  self ← getThis;
  lift (assembleLocal self transaction accountKeys simulationResult).

(** the value the [catch] returns, lines 432-436 *)
Definition localFailure (e : js_value) : DebugTransaction :=
  {| signature := None;
     success := false;
     error := Some (formatError e);
     instructions := [];
     timestamp := None;
     slot := None;
     network := None |}.

(** lines 322-438 *)
Definition debugLocalTransaction (transaction : LocalTransaction)
    (options : LocalOptions) : M DebugTransaction :=
  tryCatch (debugLocalTransaction_try transaction options)
           (fun e => mret (localFailure e)).

End Local.

(** *** The caller of [debugLocalTransaction]: src/cli/commands/program.ts *)

(** lines 83-98: the keys of the instruction; [signers] are the public keys
    of the loaded signers, the first of which pays the fee *)
Definition instructionKeys (accountKeys signers : list PublicKey)
    (feePayer : PublicKey) : list AccountMeta :=
  let keys :=
    (fun pubkey => {| meta_pubkey := pubkey;
                      meta_isSigner := bool_decide (pubkey ∈ signers);
                      meta_isWritable := true |}) <$> accountKeys in
  if existsb (fun k => String.eqb (meta_pubkey k) feePayer) keys then keys
  else {| meta_pubkey := feePayer; meta_isSigner := true; meta_isWritable := true |}
       :: keys.

(** lines 100-109: the transaction of one instruction *)
Definition programTransaction (programPubkey : PublicKey)
    (accountKeys signers : list PublicKey) (feePayer : PublicKey)
    (instructionData : list byte) : LegacyTransaction :=
  {| lt_recentBlockhash := None;
     lt_feePayer := Some feePayer;
     lt_instructions :=
       [ {| li_programId := programPubkey;
            li_keys := instructionKeys accountKeys signers feePayer;
            li_data := instructionData |} ] |}.

End LocalSimulator.

(** ** What the orchestrator does with the accounts of an instruction *)

Module AssemblySpec.
Import Simulator.

(** every index of the instruction refers to an account key *)
Definition inRange (accountKeys : list PublicKey) (ix : MessageInstruction) : Prop :=
  programIdIndex ix < List.length accountKeys ∧
  Forall (fun idx => idx < List.length accountKeys) (accounts ix).

(** the keys an instruction refers to that have a snapshot, in the order of
    the instruction *)
Definition snapshotKeys (accountKeys : list PublicKey)
    (pre : gmap string AccountState) (idxs : list nat) : list PublicKey :=
  List.filter (fun key => isSome (pre !! key))
              (omap (fun idx : nat => accountKeys !! idx) idxs).

(** the only instruction a versioned trace has *)
Definition systemInstruction (lines : list string) : DebugInstruction :=
  {| programId := "11111111111111111111111111111111";
     programName := Some "System Program";
     instructionIndex := 0;
     logs := lines;
     accountDiffs := [];
     instructionName := None;
     anchorInstruction := None;
     anchorArgs := None |}.

End AssemblySpec.

(** ** A second scenario: a program with an IDL, and a versioned message *)

Module Scenario2.
Import AnchorUtils Simulator Spec Scenario AssemblySpec.

(** a simulator on dev-net that knows the IDL of [Prog1] *)
Definition selfT : TransactionSimulator :=
  newSimulator devnetUrl {[ prog := transferIdl ]}.

(** one instruction of [Prog1] whose data is the truncated transfer payload *)
Definition txT : TransactionResponse :=
  {| tx_slot := 43;
     blockTime := None;
     message :=
       Legacy [payer; acctX; acctY; prog]
              [ {| programIdIndex := 3; accounts := [2; 1; 1];
                   ix_bytes := truncatedPayload |} ]
              (fun i => Nat.eqb i 0) (fun i => Nat.ltb i 3) |}.

Definition preT : gmap string AccountState :=
  {[ acctX := stateX; payer := statePayer ]}.

(** the trace assembled for [txT] *)
Definition traceT : DebugTransaction :=
  match assemble world selfT sigB txT preT simResponse with
  | Ok d => d
  | Throw e => failure sigB e
  end.

(** an instruction that names an account key the message does not have *)
Definition txOutOfRange : TransactionResponse :=
  {| tx_slot := 44;
     blockTime := None;
     message :=
       Legacy [payer; prog]
              [ {| programIdIndex := 1; accounts := [0; 7]; ix_bytes := [] |} ]
              (fun i => Nat.eqb i 0) (fun i => Nat.ltb i 1) |}.

Definition txVersioned : TransactionResponse :=
  {| tx_slot := 45;
     blockTime := Some 0%N;
     message := Versioned [payer; prog] |}.

Definition noFallback : SimulateOptions :=
  {| commitment := None; signers := None; skipNetworkFallback := true |}.

End Scenario2.

(** ** A caller-built transaction, used to run [debugLocalTransaction] *)

Module LocalScenario.
Import AnchorUtils Simulator LocalSimulator Scenario.

Definition isLegacy (transaction : LocalTransaction) : bool :=
  match transaction with
  | IsLegacy _ => true
  | IsVersioned _ => false
  end.

(** the transaction the [program] command builds for [Prog1] with the
    account [AccountX] and the payer as only signer *)
Definition programTx : LegacyTransaction :=
  programTransaction prog [acctX] [payer] payer [].

(** a versioned transaction whose only instruction has a program index
    the message has no key for *)
Definition brokenVersioned : VersionedTransaction :=
  {| vt_staticAccountKeys := [payer; prog];
     vt_compiledInstructions :=
       [ {| programIdIndex := 5; accounts := [0]; ix_bytes := [] |} ] |}.

Definition localWorld : LocalWorld :=
  {| base := world;
     compileMessage := fun t =>
       Ok (default [] ((fun p => [p]) <$> lt_feePayer t) ++
           [acctX; prog]);
     fromSerialized := fun v =>
       Ok {| lt_recentBlockhash := None; lt_feePayer := None;
             lt_instructions := [] |};
     rpc_simulateLocal := fun _ _ _ => Ok simResponse |}.

(** the trace of [programTx]: its only instruction, without a line *)
Definition programTrace : DebugTransaction :=
  {| signature := None;
     success := true;
     error := None;
     instructions :=
       [ {| programId := prog;
            programName := Some prog;
            instructionName := None;
            instructionIndex := 0;
            logs := [];
            accountDiffs := [];
            anchorInstruction := None;
            anchorArgs := None |} ];
     timestamp := None;
     slot := None;
     network := None |}.

Definition withBlockhash : LocalOptions :=
  {| lo_signers := None; replaceRecentBlockhash := true;
     preflightCommitment := None |}.

End LocalScenario.

(** ** Facts about the log parser *)

Module LogParserFacts.
Import JsString Regex LogParser Spec Invariants.

Lemma wellKeyed_init : wellKeyed initState.
Proof.
  split; simpl; [|done].
  intros k. rewrite lookup_empty. split; [by intros [? ?]|lia].
Qed.

Lemma pushCurrent_ok st log :
  wellKeyed st → inInstruction st = true →
  ∃ st', pushCurrent st log = Ok st' ∧ wellKeyed st' ∧
         currentInstruction st' = currentInstruction st.
Proof.
  intros [Hk Hin] Hi. unfold pushCurrent, push.
  destruct (instructionLogs st !! currentInstruction st) as [bucket|] eqn:Hb.
  - eexists; split; [reflexivity|]. split; [|done].
    split; simpl; [|done].
    intros k. destruct (decide (k = currentInstruction st)) as [->|Hne].
    + rewrite lookup_insert_eq. rewrite <- Hk, Hb. split; eauto.
    + rewrite lookup_insert_ne by done. apply Hk.
  - exfalso. specialize (Hin Hi).
    assert (is_Some (instructionLogs st !! currentInstruction st)) as [? ?]
      by (apply Hk; lia).
    congruence.
Qed.

Lemma openBucket_ok st log :
  wellKeyed st →
  ∃ st',
    pushCurrent
      (ParseState (<[S (currentInstruction st) :=
                      default [] (instructionLogs st !! S (currentInstruction st))]>
                     (instructionLogs st))
                  (S (currentInstruction st)) true) log = Ok st' ∧
    wellKeyed st' ∧ currentInstruction st' = S (currentInstruction st).
Proof.
  intros [Hk Hin].
  apply (pushCurrent_ok (ParseState _ _ true)); [|done].
  split; simpl; [|lia].
  intros k. destruct (decide (k = S (currentInstruction st))) as [->|Hne].
  - rewrite lookup_insert_eq. split; [lia|eauto].
  - rewrite lookup_insert_ne by done. rewrite Hk. lia.
Qed.

Lemma parseLine_ok st log :
  wellKeyed st →
  ∃ st', parseLine st log = Ok st' ∧ wellKeyed st' ∧
         currentInstruction st' =
           currentInstruction st + (if opensBucket log then 1 else 0).
Proof.
  intros Hw. unfold parseLine, opensBucket.
  destruct (startsWith "Program " log && includes " invoke [" log); simpl.
  - destruct (search invokeRe log) as [[|depth caps]|]; simpl;
      try (exists st; split; [done|split; [done|lia]]).
    destruct (truthy depth); simpl;
      [|exists st; split; [done|split; [done|lia]]].
    destruct (String.eqb depth "1"); simpl.
    + destruct (openBucket_ok st log Hw) as (st' & -> & ? & Hc).
      exists st'. split; [done|split; [done|lia]].
    + destruct (inInstruction st) eqn:Hi;
        [|exists st; split; [done|split; [done|lia]]].
      destruct (pushCurrent_ok st log Hw Hi) as (st' & -> & ? & Hc).
      exists st'. split; [done|split; [done|lia]].
  - destruct (inInstruction st) eqn:Hi;
      [|exists st; split; [done|split; [done|lia]]].
    destruct (pushCurrent_ok st log Hw Hi) as (st' & -> & ? & Hc).
    exists st'. split; [done|split; [done|lia]].
Qed.

Lemma parseLines_ok logs : ∀ st,
  wellKeyed st →
  ∃ st', parseLines st logs = Ok st' ∧ wellKeyed st' ∧
         currentInstruction st' = currentInstruction st + bucketCount logs.
Proof.
  induction logs as [|log rest IH]; intros st Hw; simpl.
  - exists st. unfold bucketCount; simpl. split; [done|split; [done|lia]].
  - destruct (parseLine_ok st log Hw) as (st1 & -> & Hw1 & Hc1).
    destruct (IH st1 Hw1) as (st2 & -> & Hw2 & Hc2).
    exists st2. split; [done|split; [done|]].
    rewrite Hc2, Hc1. unfold bucketCount; simpl.
    destruct (opensBucket log); simpl; lia.
Qed.

(** The grouper returns for every stream, and its buckets are keyed
    [1..K], [K] the number of lines that open a bucket. *)
Lemma parseTransactionLogs_keys logs :
  ∃ m : gmap nat (list string),
    parseTransactionLogs logs = Ok m ∧
    ∀ k : nat, is_Some (m !! k) ↔ 1 ≤ k ≤ bucketCount logs.
Proof.
  unfold parseTransactionLogs.
  destruct (parseLines_ok logs initState wellKeyed_init) as (st & -> & [Hk _] & Hc).
  exists (instructionLogs st). split; [done|].
  intros k. rewrite Hk, Hc. simpl. lia.
Qed.

Lemma parseTransactionLogs_no_key_0 logs (m : gmap nat (list string)) :
  parseTransactionLogs logs = Ok m → m !! 0 = None.
Proof.
  intros H. destruct (parseTransactionLogs_keys logs) as (m' & H' & Hk).
  rewrite H in H'. injection H' as <-.
  destruct (m !! 0) eqn:E; [|done].
  assert (1 ≤ 0 ≤ bucketCount logs) by (apply Hk; eauto). lia.
Qed.

End LogParserFacts.

Module LogParserClaims.
Import JsString Regex LogParser Spec LogParserFacts.

Lemma existsb_false_iff {A} (f : A → bool) (l : list A) :
  existsb f l = false ↔ ∀ x, x ∈ l → f x = false.
Proof.
  induction l as [|a l IH]; simpl.
  - split; [|done]. intros _ x Hx. by apply not_elem_of_nil in Hx.
  - rewrite orb_false_iff, IH. split.
    + intros [Ha Hl] x Hx. apply elem_of_cons in Hx as [->|Hx]; auto.
    + intros H. split; [apply H; left|intros x Hx; apply H; by right].
Qed.

Lemma existsb_true_iff {A} (f : A → bool) (l : list A) :
  existsb f l = true ↔ ∃ x, x ∈ l ∧ f x = true.
Proof.
  rewrite existsb_exists. split; intros (x & Hx & Hf); exists x;
    (split; [by apply list_elem_of_In|done]).
Qed.

(** C2, at a stream the grouper can receive: the second line comes after
    the line that opens bucket 1, and it ends up in no bucket, because it
    passes the test of line 17 while the pattern of line 18 does not match
    it and that case has no branch. *)
Theorem parseTransactionLogs_drops_unmatched_invoke_line :
  chattyStream !! 0 = Some "Program P invoke [1]" ∧
  opensBucket "Program P invoke [1]" = true ∧
  chattyStream !! 1 = Some "Program log: about to invoke [cpi]" ∧
  bucketCount chattyStream = 1 ∧
  parseTransactionLogs chattyStream =
    Ok {[ 1 := ["Program P invoke [1]"; "Program log: done"] ]}.
Proof. repeat split; reflexivity. Qed.

(** C9 as stated fails: a stream in which no line at all indicates a
    failure is still reported as unsuccessful when it has no line with
    [Program log: Success]. *)
Lemma isTransactionSuccessful_quiet_stream_false :
  ¬ (∀ logs : list string,
       existsb indicatesFailure logs = false →
       isTransactionSuccessful logs = true).
Proof.
  intros H. specialize (H quietStream eq_refl). discriminate H.
Qed.

(** C9, amended: [isTransactionSuccessful] returns true exactly when none
    of the last five lines contains [failed] or [Error:] and some line of
    the stream contains [Program log: Success]; on the stream of the
    scenario it returns true and [extractComputeUnits] returns 200. *)
Theorem isTransactionSuccessful_iff :
  (∀ logs : list string,
     isTransactionSuccessful logs = true ↔
     (∀ log, log ∈ lastN 5 logs → indicatesFailure log = false) ∧
     (∃ log, log ∈ logs ∧ includes "Program log: Success" log = true)) ∧
  isTransactionSuccessful scenario = true ∧
  extractComputeUnits scenario = Some 200%N.
Proof.
  split; [|split; reflexivity].
  intros logs. unfold isTransactionSuccessful.
  rewrite <- existsb_false_iff, <- existsb_true_iff.
  destruct (existsb indicatesFailure (lastN 5 logs)).
  - split; [discriminate|]. intros [? _]. discriminate.
  - split; [intros H; by split|by intros [_ H]].
Qed.

End LogParserClaims.

(** ** Facts about the Anchor decoder *)

Module AnchorClaims.
Import AnchorUtils Spec.

Lemma copyName_lookup (nameBytes : list byte) : ∀ (n i : nat) (ph : list byte) (j : nat),
  i + n ≤ 8 → i + n ≤ List.length ph →
  copyName nameBytes ph i n !! j =
    if decide (i ≤ j < i + n ∧ j < List.length nameBytes)
    then nameBytes !! j else ph !! j.
Proof.
  induction n as [|n IH]; intros i ph j H8 Hlen; simpl.
  - case_decide; [lia|done].
  - destruct (Nat.ltb_spec i (List.length nameBytes)) as [Hi|Hi];
    destruct (Nat.ltb_spec i 8) as [Hi8|Hi8]; simpl; try lia.
    + rewrite IH by (rewrite ?length_insert; lia).
      destruct (decide (j = i)) as [->|Hne].
      * rewrite list_lookup_insert_eq by lia.
        destruct (lookup_lt_is_Some_2 nameBytes i Hi) as [b Hb].
        rewrite Hb. simpl. repeat case_decide; try lia; done.
      * rewrite list_lookup_insert_ne by done.
        repeat case_decide; try lia; done.
    + case_decide; [lia|done].
Qed.

Lemma bufferCompare_eq (a : list byte) : ∀ b, bufferCompare a b = 0%Z ↔ a = b.
Proof.
  induction a as [|x a IH]; intros [|y b]; simpl; try (split; discriminate);
    [done|].
  destruct (N.compare_spec (Byte.to_N x) (Byte.to_N y)) as [E|L|L].
  - assert (x = y) as ->.
    { apply (f_equal Byte.of_N) in E. rewrite !Byte.of_to_N in E. congruence. }
    rewrite IH. split; congruence.
  - split; [discriminate|]. intros [= -> _]. lia.
  - split; [discriminate|]. intros [= -> _]. lia.
Qed.

Lemma findIn_None (ixs : list IdlInstruction) (d : list byte) :
  Forall (fun ix => deriveInstructionDiscriminator (name ix) ≠ d) ixs →
  findIn ixs d = None.
Proof.
  induction 1 as [|ix ixs Hne _ IH]; simpl; [done|].
  destruct (Z.eqb_spec (bufferCompare d (deriveInstructionDiscriminator (name ix))) 0)
    as [E|_]; [|done].
  apply bufferCompare_eq in E. congruence.
Qed.

(** C3: the discriminator is the first eight bytes of the name itself,
    padded with zero bytes; no hash is applied, so two names with the same
    first eight bytes get the same discriminator. *)
Theorem deriveInstructionDiscriminator_copies_name :
  (∀ ixName : string,
     deriveInstructionDiscriminator ixName =
       take 8 (list_byte_of_string ixName ++ replicate 8 x00)) ∧
  deriveInstructionDiscriminator "transfer" = list_byte_of_string "transfer" ∧
  deriveInstructionDiscriminator "transfer" =
    deriveInstructionDiscriminator "transferChecked".
Proof.
  split; [|split; reflexivity].
  intros ixName. unfold deriveInstructionDiscriminator.
  apply list_eq. intros j.
  rewrite copyName_lookup by (rewrite ?length_replicate; lia).
  set (nb := list_byte_of_string ixName).
  destruct (decide (j < 8)) as [Hj|Hj].
  - rewrite lookup_take_lt by done.
    case_decide as Hc.
    + by rewrite lookup_app_l by lia.
    + rewrite lookup_app_r by lia.
      rewrite !lookup_replicate_2 by lia. done.
  - rewrite lookup_take_ge by lia.
    case_decide; [lia|]. apply lookup_replicate_None. lia.
Qed.

(** C5, at a payload with the discriminator of [transfer] and three
    argument bytes where the [u64] field needs eight: the decoder returns a
    decoded instruction whose arguments are the hexadecimal text of the
    three bytes.  At every input, [decodeAnchorArgs] returns [{}] or that
    text, and never fails. *)
Theorem decodeAnchorArgs_never_fails :
  (∀ (data : list byte) (ix : IdlInstruction),
     decodeAnchorArgs data ix = EmptyArgs ∨
     decodeAnchorArgs data ix = RawData (toHex data)) ∧
  decodeAnchorInstruction (Compiled 0 [] truncatedPayload) transferIdl [] =
    Ok (Some {| dec_name := "transfer"; dec_ix := transferIx;
                dec_args := RawData "e80300" |}).
Proof.
  split; [|reflexivity].
  intros data ix. unfold decodeAnchorArgs.
  destruct (args ix) as [[|f fs]|]; auto.
Qed.

(** C6: when the first eight bytes of the payload are the discriminator
    of no instruction the IDL declares, [decodeAnchorInstruction] returns
    [null]; it returns, without throwing, whatever the IDL is. *)
Theorem decodeAnchorInstruction_unregistered
    (instruction : Instruction) (idl : Idl) (accountKeys : list PublicKey) :
  Forall (fun ix => deriveInstructionDiscriminator (name ix) ≠
                    take DISCRIMINATOR_SIZE (ix_data instruction))
         (declared idl) →
  decodeAnchorInstruction instruction idl accountKeys = Ok None.
Proof.
  intros H. unfold decodeAnchorInstruction, decodeAnchorInstruction_try.
  destruct idl as [|[ixs|]]; simpl; [done| |done].
  simpl in H. by rewrite (findIn_None _ _ H).
Qed.

(** the payload that starts with the bytes of [withdraw], against an IDL
    that declares [transfer] only *)
Lemma decodeAnchorInstruction_unregistered_witness :
  decodeAnchorInstruction (Compiled 0 [] unknownPayload) transferIdl [] = Ok None.
Proof.
  apply (decodeAnchorInstruction_unregistered
           (Compiled 0 [] unknownPayload) transferIdl []).
  simpl. constructor; [|constructor].
  vm_compute. discriminate.
Defined.

Lemma decodeAnchorInstruction_returns
    (instruction : Instruction) (idl : Idl) (accountKeys : list PublicKey) :
  ∃ r, decodeAnchorInstruction instruction idl accountKeys = Ok r.
Proof.
  unfold decodeAnchorInstruction.
  destruct (decodeAnchorInstruction_try instruction idl accountKeys); eauto.
Qed.

End AnchorClaims.

(** ** Facts about the orchestrator *)

Module SimulatorFacts.
Import JsString AnchorUtils LogParser Simulator FallbackSpec Invariants.

Ltac unfoldM :=
  unfold mbind, M_bind, mret, M_ret, tryCatch, throw, lift, getThis,
         switchNetwork, request in *.

Lemma networks_distinct :
  mainnetUrl ≠ devnetUrl ∧ mainnetUrl ≠ testnetUrl ∧ devnetUrl ≠ testnetUrl.
Proof. repeat split; discriminate. Qed.

Section Runs.
Variable w : World.

Lemma tryNetwork_run (url sig : string) (options : SimulateOptions) (r : Run) :
  tryNetwork w url sig options None r =
    if decide (rpcUrl (this r) = url) then (Ok None, r)
    else
      match rpc_getTransaction w url sig (commitmentOf options) with
      | Ok (Some t) =>
          (Ok (Some t),
           {| this := switchedTo (this r) url;
              requests := requests r ++ [GetTransaction url sig] |})
      | _ =>
          (Ok None,
           {| this := this r;
              requests := requests r ++ [GetTransaction url sig] |})
      end.
Proof.
  unfold tryNetwork, getTransaction. unfoldM. simpl.
  case_bool_decide as Hne; destruct (decide (rpcUrl (this r) = url)) as [He|He];
    try done.
  destruct (rpc_getTransaction w url sig (commitmentOf options)) as [[t|]|e];
    reflexivity.
Qed.

Lemma locateTransaction_run (sig : string) (options : SimulateOptions) (r : Run) :
  endpoint (connection (this r)) = rpcUrl (this r) →
  rpc_getTransaction w (rpcUrl (this r)) sig (commitmentOf options) = Ok None →
  skipNetworkFallback options = false →
  locateTransaction w sig options r =
    let '(probed, hit) :=
      probe w sig (commitmentOf options) (candidates (rpcUrl (this r))) in
    let sent :=
      requests r ++
      GetTransaction (rpcUrl (this r)) sig ::
      ((fun n => GetTransaction n sig) <$> probed) in
    match hit with
    | Some (n, t) =>
        (Ok t, {| this := switchedTo (this r) n; requests := sent |})
    | None =>
        (Throw (JsError ("Transaction " +:+ sig +:+ " not found on any network")),
         {| this := this r; requests := sent |})
    end.
Proof.
  intros Hend Hmiss Hskip.
  destruct networks_distinct as (Hmd & Hmt & Hdt).
  unfold locateTransaction, getTransaction.
  unfold mbind at 1 2 3, M_bind, getThis, request at 1.
  rewrite Hend, Hmiss, Hskip.
  unfold candidates, fallbackNetworks.
  rewrite !filter_cons, filter_nil.
  remember (rpcUrl (this r)) as u eqn:Hu.
  assert (∀ n, rpcUrl (this r) = n ↔ u = n) as Hiff by (by subst u).
  destruct (decide (u = mainnetUrl)) as [Hm|Hm];
  destruct (decide (u = devnetUrl)) as [Hd|Hd];
  destruct (decide (u = testnetUrl)) as [Ht|Ht];
    try congruence;
    repeat match goal with
    | |- context [decide (u ≠ ?n)] =>
        first [ rewrite (decide_True (P := u ≠ n)) by congruence
              | rewrite (decide_False (P := u ≠ n)) by (intros H; apply H; congruence) ]
    end;
    repeat first
      [ progress cbn [negb isSome andb this requests probe]
      | progress unfold mbind, M_bind
      | rewrite tryNetwork_run
      | match goal with
        | |- context [decide (rpcUrl (this r) = ?n)] =>
            first [ rewrite (decide_True (P := rpcUrl (this r) = n))
                      by (apply Hiff; congruence)
                  | rewrite (decide_False (P := rpcUrl (this r) = n))
                      by (rewrite Hiff; congruence) ]
        end
      | match goal with
        | |- context [rpc_getTransaction w ?n sig ?c] =>
            destruct (rpc_getTransaction w n sig c) as [[?|]|?]
        end ];
    unfoldM; cbn [fmap list_fmap]; rewrite <- ?app_assoc; reflexivity.
Qed.

Lemma run_eta (r : Run) : {| this := this r; requests := requests r |} = r.
Proof. by destruct r. Qed.

Lemma fetchAccount_run (pre : gmap string AccountState) (key : PublicKey) (r : Run) :
  fetched w (endpoint (connection (this r))) pre →
  ∃ pre' : gmap string AccountState,
    fetchAccount w pre key r =
      (Ok pre',
       {| this := this r;
          requests := requests r ++
                      [GetAccountInfo (endpoint (connection (this r))) key] |}) ∧
    fetched w (endpoint (connection (this r))) pre'.
Proof.
  intros Hpre. unfold fetchAccount, getAccountInfo. unfoldM. simpl.
  destruct (rpc_getAccountInfo w (endpoint (connection (this r))) key)
    as [[info|]|e] eqn:Hrpc; eexists; (split; [reflexivity|]); try done.
  intros k s. destruct (decide (k = key)) as [->|Hne].
  - rewrite lookup_insert_eq. intros [= <-]. simpl. by split.
  - rewrite lookup_insert_ne by done. apply Hpre.
Qed.

Lemma fetchAccounts_run (keys : list PublicKey) :
  ∀ (pre : gmap string AccountState) (r : Run),
    fetched w (endpoint (connection (this r))) pre →
    ∃ (pre' : gmap string AccountState) (later : list RpcCall),
      fetchAccounts w pre keys r =
        (Ok pre', {| this := this r; requests := requests r ++ later |}) ∧
      fetched w (endpoint (connection (this r))) pre' ∧
      addressedTo (endpoint (connection (this r))) later.
Proof.
  induction keys as [|key rest IH]; intros pre r Hpre; simpl.
  - exists pre, []. rewrite app_nil_r, run_eta.
    split; [done|split; [done|constructor]].
  - destruct (fetchAccount_run pre key r Hpre) as (pre1 & E1 & H1).
    unfold mbind, M_bind. rewrite E1.
    destruct (IH pre1 {| this := this r;
                         requests := requests r ++
                           [GetAccountInfo (endpoint (connection (this r))) key] |}
                 H1) as (pre2 & later & E2 & H2 & Hl). simpl in *.
    exists pre2, (GetAccountInfo (endpoint (connection (this r))) key :: later).
    rewrite E2, <- app_assoc. split; [done|split; [done|by constructor]].
Qed.

Lemma simulateFromSignature_run (sig : string) (options : SimulateOptions) (r : Run) :
  ∃ (o : outcome SimulatedTransactionResponse) (later : list RpcCall),
    simulateFromSignature w sig options r =
      (o, {| this := this r; requests := requests r ++ later |}) ∧
    addressedTo (endpoint (connection (this r))) later.
Proof.
  unfold simulateFromSignature, getTransaction, getLatestBlockhash,
    simulateTransaction. unfoldM. simpl.
  destruct (rpc_getTransaction w _ sig _) as [[t|]|e]; simpl.
  - destruct (rpc_getLatestBlockhash w _ _) as [b|e]; simpl;
      eexists; eexists; rewrite <- ?app_assoc;
      (split; [reflexivity|]); repeat constructor.
  - eexists; eexists; (split; [reflexivity|]); repeat constructor.
  - eexists; eexists; (split; [reflexivity|]); repeat constructor.
Qed.

(** What a run of the [try] block that returns has gone through. *)
Lemma debugSignature_try_inv (sig : string) (options : SimulateOptions)
    (r r' : Run) (d : DebugTransaction) :
  debugSignature_try w sig options r = (Ok d, r') →
  ∃ (tx : TransactionResponse) (r1 : Run)
    (pre : gmap string AccountState) (sim : SimulatedTransactionResponse)
    (later : list RpcCall),
    locateTransaction w sig options r = (Ok tx, r1) ∧
    this r' = this r1 ∧
    requests r' = requests r1 ++ later ∧
    addressedTo (endpoint (connection (this r1))) later ∧
    fetched w (endpoint (connection (this r1))) pre ∧
    assemble w (this r1) sig tx pre sim = Ok d.
Proof.
  unfold debugSignature_try. unfold mbind at 1, M_bind.
  destruct (locateTransaction w sig options r) as [[tx|e] r1]; [|discriminate].
  unfold mbind at 1, M_bind.
  destruct (fetchAccounts_run (messageAccountKeys (message tx)) ∅ r1)
    as (pre & l1 & -> & Hpre & Hl1).
  { intros k s. by rewrite lookup_empty. }
  unfold mbind at 1, M_bind.
  destruct (simulateFromSignature_run sig options
              {| this := this r1; requests := requests r1 ++ l1 |})
    as (o & l2 & -> & Hl2).
  destruct o as [sim|e]; [|discriminate].
  unfoldM. simpl.
  destruct (assemble w (this r1) sig tx pre sim) as [d'|e] eqn:Ha;
    [|discriminate].
  intros [= <- <-]. simpl.
  exists tx, r1, pre, sim, (l1 ++ l2).
  rewrite <- app_assoc. repeat (split; [done|]). split; [|done].
  apply Forall_app. by split.
Qed.

Lemma accountDiffFor_spec (keys : list PublicKey)
    (pre : gmap string AccountState) (idx : nat) (diff : AccountDiff) :
  accountDiffFor keys pre idx = Ok (Some diff) → placeholderDiff pre diff.
Proof.
  unfold accountDiffFor, placeholderDiff.
  destruct (keys !! idx) as [key|]; [|discriminate].
  destruct (pre !! key) as [s|] eqn:Hs; [|discriminate].
  intros [= <-]. simpl. rewrite N.eqb_refl. simpl. eauto.
Qed.

Lemma accountDiffsLoop_spec (keys : list PublicKey)
    (pre : gmap string AccountState) (idxs : list nat) :
  ∀ diffs res : list AccountDiff,
    accountDiffsLoop keys pre diffs idxs = Ok res →
    Forall (placeholderDiff pre) diffs → Forall (placeholderDiff pre) res.
Proof.
  induction idxs as [|idx rest IH]; intros diffs res; simpl.
  - by intros [= <-].
  - unfold mbind, outcome_bind.
    destruct (accountDiffFor keys pre idx) as [[diff|]|e] eqn:Hd;
      [| |discriminate]; intros Hloop Hdiffs; apply (IH _ _ Hloop); [|done].
    apply Forall_app. split; [done|].
    constructor; [|constructor]. by apply (accountDiffFor_spec keys pre idx).
Qed.

Lemma debugInstructionFor_spec (self : TransactionSimulator)
    (keys : list PublicKey) (pre : gmap string AccountState)
    (m : gmap nat (list string)) (ix : MessageInstruction) (index : nat)
    (di : DebugInstruction) :
  debugInstructionFor w self keys pre m ix index = Ok di →
  instructionIndex di = index ∧
  logs di = default [] (m !! index) ∧
  Forall (placeholderDiff pre) (accountDiffs di).
Proof.
  unfold debugInstructionFor.
  destruct (keys !! programIdIndex ix) as [pid|]; [|discriminate].
  unfold mbind, outcome_bind.
  destruct (accountDiffsLoop keys pre [] (accounts ix)) as [diffs|e] eqn:Hl;
    [|discriminate].
  intros [= <-]. simpl. repeat split.
  apply (accountDiffsLoop_spec keys pre _ _ _ Hl). constructor.
Qed.

Lemma forEachInstruction_spec (self : TransactionSimulator)
    (keys : list PublicKey) (pre : gmap string AccountState)
    (m : gmap nat (list string)) (ixs : list MessageInstruction) :
  ∀ (done : list DebugInstruction) (index : nat) (res : list DebugInstruction),
    forEachInstruction w self keys pre m done ixs index = Ok res →
    ∃ news : list DebugInstruction,
      res = done ++ news ∧
      List.length news = List.length ixs ∧
      ∀ (j : nat) (di : DebugInstruction), news !! j = Some di →
        instructionIndex di = index + j ∧
        logs di = default [] (m !! (index + j)) ∧
        Forall (placeholderDiff pre) (accountDiffs di).
Proof.
  induction ixs as [|ix rest IH]; intros done index res; simpl.
  - intros [= <-]. exists []. rewrite app_nil_r.
    split; [done|split; [done|]]. intros j di Hj. by rewrite lookup_nil in Hj.
  - unfold mbind, outcome_bind.
    destruct (debugInstructionFor w self keys pre m ix index) as [d|e] eqn:Hd;
      [|discriminate].
    intros Hrest. destruct (IH _ _ _ Hrest) as (news & -> & Hlen & Hnews).
    exists (d :: news). rewrite <- app_assoc. split; [done|].
    split; [simpl; lia|].
    intros [|j] di; simpl.
    + intros [= <-]. rewrite Nat.add_0_r.
      by apply (debugInstructionFor_spec self keys pre m ix).
    + intros Hj. replace (index + S j) with (S index + j) by lia.
      by apply Hnews.
Qed.

(** the fields of the trace that come from the located transaction *)
Lemma assemble_meta (self : TransactionSimulator) (sig : string)
    (tx : TransactionResponse) (pre : gmap string AccountState)
    (sim : SimulatedTransactionResponse) (d : DebugTransaction) :
  assemble w self sig tx pre sim = Ok d →
  signature d = Some sig ∧
  slot d = Some (tx_slot tx) ∧
  timestamp d = match blockTime tx with
                | Some t => if N.eqb t 0 then None else Some t
                | None => None
                end ∧
  network d = Some (getNetworkName (rpcUrl self)).
Proof.
  unfold assemble. unfold mbind, outcome_bind.
  destruct (parseTransactionLogs _) as [m|e]; [|discriminate].
  destruct (match message tx with Legacy _ _ _ _ => _ | Versioned _ => _ end)
    as [instrs|e]; [|discriminate].
  by intros [= <-].
Qed.

Lemma assemble_legacy (self : TransactionSimulator) (sig : string)
    (tx : TransactionResponse) (pre : gmap string AccountState)
    (sim : SimulatedTransactionResponse) (d : DebugTransaction)
    (keys : list PublicKey) (ixs : list MessageInstruction)
    (sg wr : nat → bool) :
  message tx = Legacy keys ixs sg wr →
  assemble w self sig tx pre sim = Ok d →
  ∃ m : gmap nat (list string),
    parseTransactionLogs (default [] (sim_logs sim)) = Ok m ∧
    List.length (instructions d) = List.length ixs ∧
    ∀ (j : nat) (di : DebugInstruction), instructions d !! j = Some di →
      instructionIndex di = j ∧ logs di = default [] (m !! j).
Proof.
  intros Hmsg. unfold assemble. rewrite Hmsg. unfold mbind, outcome_bind.
  destruct (parseTransactionLogs _) as [m|e]; [|discriminate].
  destruct (forEachInstruction w self _ pre m [] ixs 0) as [instrs|e] eqn:Hf;
    [|discriminate].
  intros [= <-]. simpl. exists m. split; [done|].
  destruct (forEachInstruction_spec _ _ _ _ _ _ _ _ Hf) as (news & -> & Hlen & Hn).
  simpl. split; [done|]. intros j di Hj.
  destruct (Hn j di Hj) as (? & ? & _). by split.
Qed.

Lemma assemble_diffs (self : TransactionSimulator) (sig : string)
    (tx : TransactionResponse) (pre : gmap string AccountState)
    (sim : SimulatedTransactionResponse) (d : DebugTransaction) :
  assemble w self sig tx pre sim = Ok d →
  Forall (fun di => Forall (placeholderDiff pre) (accountDiffs di))
         (instructions d).
Proof.
  unfold assemble. unfold mbind, outcome_bind.
  destruct (parseTransactionLogs _) as [m|e]; [|discriminate].
  destruct (message tx) as [keys ixs sg wr|keys]; simpl.
  - destruct (forEachInstruction w self keys pre m [] ixs 0) as [instrs|e] eqn:Hf;
      [|discriminate].
    intros [= <-]. simpl.
    destruct (forEachInstruction_spec _ _ _ _ _ _ _ _ Hf) as (news & -> & _ & Hn).
    simpl. apply Forall_lookup. intros j di Hj. by apply (Hn j di Hj).
  - intros [= <-]. simpl. repeat constructor.
Qed.

(** [debugSignature] returns, and what it returns is the trace of the
    [try] block or the failure record built from what the block threw. *)
Lemma debugSignature_run (sig : string) (options : SimulateOptions) (r : Run) :
  debugSignature w sig options r =
    match debugSignature_try w sig options r with
    | (Ok d, r') => (Ok d, r')
    | (Throw e, r') => (Ok (failure sig e), r')
    end.
Proof. reflexivity. Qed.

Lemma probe_hit (sig c : string) (nets : list string) :
  ∀ (probed : list string) (n : string) (t : TransactionResponse),
    probe w sig c nets = (probed, Some (n, t)) →
    ∃ missed rest : list string,
      nets = missed ++ n :: rest ∧
      probed = missed ++ [n] ∧
      rpc_getTransaction w n sig c = Ok (Some t) ∧
      Forall (fun m => ∀ t', rpc_getTransaction w m sig c ≠ Ok (Some t')) missed.
Proof.
  induction nets as [|m nets IH]; intros probed n t; simpl; [discriminate|].
  destruct (rpc_getTransaction w m sig c) as [[t0|]|e] eqn:Hm.
  - intros [= <- <- <-]. exists [], nets. repeat split; [done|constructor].
  - destruct (probe w sig c nets) as [p h]. intros [= <- ->].
    destruct (IH _ _ _ eq_refl) as (missed & rest & -> & -> & Hn & Hmiss).
    exists (m :: missed), rest. repeat split; [done|].
    constructor; [|done]. intros t'. rewrite Hm. discriminate.
  - destruct (probe w sig c nets) as [p h]. intros [= <- ->].
    destruct (IH _ _ _ eq_refl) as (missed & rest & -> & -> & Hn & Hmiss).
    exists (m :: missed), rest. repeat split; [done|].
    constructor; [|done]. intros t'. rewrite Hm. discriminate.
Qed.

End Runs.

End SimulatorFacts.

(** ** The claims about the orchestrator *)

Module SimulatorClaims.
Import JsString AnchorUtils LogParser Simulator FallbackSpec Spec.
Import Invariants LogParserFacts SimulatorFacts Scenario.



Lemma locateTransaction_skip
    (w : World) (sig : string) (options : SimulateOptions) (r : Run) :
  rpc_getTransaction w (endpoint (connection (this r))) sig (commitmentOf options)
    = Ok None →
  skipNetworkFallback options = true →
  locateTransaction w sig options r =
    (Throw (JsError ("Transaction " +:+ sig +:+ " not found on any network")),
     {| this := this r;
        requests := requests r ++
                    [GetTransaction (endpoint (connection (this r))) sig] |}).
Proof.
  intros Hmiss Hskip. unfold locateTransaction, getTransaction.
  unfold mbind, M_bind, getThis, request. rewrite Hmiss, Hskip. reflexivity.
Qed.



(** C10: in the trace of a legacy transaction, the instruction at
    position [i] carries the bucket stored under key [i] of the grouped
    logs, or no line when there is no such key.  The keys are [1..K'] for
    [K'] opening lines, so the first instruction never carries a line, and
    the positions stop below the number [K] of instructions, so the bucket
    under key [K] is given to no instruction. *)
Theorem assemble_attaches_bucket_of_position
    (w : World) (self : TransactionSimulator) (sig : string)
    (tx : TransactionResponse) (pre : gmap string AccountState)
    (sim : SimulatedTransactionResponse) (d : DebugTransaction)
    (keys : list PublicKey) (ixs : list MessageInstruction)
    (sg wr : nat → bool) :
  message tx = Legacy keys ixs sg wr →
  assemble w self sig tx pre sim = Ok d →
  ∃ m : gmap nat (list string),
    parseTransactionLogs (default [] (sim_logs sim)) = Ok m ∧
    (∀ k : nat, is_Some (m !! k) ↔
                1 ≤ k ≤ bucketCount (default [] (sim_logs sim))) ∧
    List.length (instructions d) = List.length ixs ∧
    (∀ (i : nat) (di : DebugInstruction), instructions d !! i = Some di →
       instructionIndex di = i ∧
       logs di = default [] (m !! i) ∧
       i ≠ List.length ixs) ∧
    (∀ di : DebugInstruction, instructions d !! 0 = Some di → logs di = []).
Proof.
  intros Hmsg Hasm.
  destruct (assemble_legacy w _ _ _ _ _ _ _ _ _ _ Hmsg Hasm) as (m & Hm & Hlen & Hi).
  exists m. split; [done|].
  destruct (parseTransactionLogs_keys (default [] (sim_logs sim))) as (m' & Hm' & Hk).
  rewrite Hm in Hm'. injection Hm' as <-.
  split; [done|]. split; [done|]. split.
  - intros i di Hdi. destruct (Hi i di Hdi) as [? ?].
    repeat split; try done.
    apply lookup_lt_Some in Hdi. lia.
  - intros di Hdi. destruct (Hi 0 di Hdi) as [_ ->].
    by rewrite (parseTransactionLogs_no_key_0 _ _ Hm).
Qed.

(** the scenario: two instructions, two opening lines; the first
    instruction carries no line and the second one the bucket of key 1 *)
Lemma assemble_attaches_bucket_of_position_witness :
  ∃ m : gmap nat (list string),
    parseTransactionLogs simLogs = Ok m ∧
    (∀ k : nat, is_Some (m !! k) ↔ 1 ≤ k ≤ bucketCount simLogs) ∧
    List.length (instructions traceB) = 2 ∧
    (∀ (i : nat) (di : DebugInstruction), instructions traceB !! i = Some di →
       instructionIndex di = i ∧
       logs di = default [] (m !! i) ∧
       i ≠ 2) ∧
    (∀ di : DebugInstruction, instructions traceB !! 0 = Some di → logs di = []).
Proof.
  apply (assemble_attaches_bucket_of_position world (newSimulator devnetUrl ∅)
           sigB txB {[ acctX := stateX; payer := statePayer ]} simResponse traceB
           [payer; acctX; acctY; prog]
           [ {| programIdIndex := 3; accounts := [1; 2]; ix_bytes := [] |};
             {| programIdIndex := 3; accounts := [1; 0]; ix_bytes := [] |} ]
           (fun i => Nat.eqb i 0) (fun i => Nat.ltb i 3)).
  - reflexivity.
  - vm_compute. reflexivity.
Defined.

(** C4: every diff of every trace has as [after] the very snapshot it has
    as [before], and records no balance change.  In the scenario the dry
    run takes 5 lamports from the payer, and the diff of the payer shows
    1000 lamports before and after. *)
Theorem accountDiffs_after_is_before :
  (∀ (w : World) (sig : string) (options : SimulateOptions) (r : Run),
     match debugSignature w sig options r with
     | (Ok d, _) =>
         Forall (fun di =>
                   Forall (fun diff => after diff = before diff ∧
                                       balance (changes diff) = None)
                          (accountDiffs di))
                (instructions d)
     | (Throw _, _) => False
     end) ∧
  rpc_getAccountInfo world devnetUrl payer = Ok (Some (infoOf 1000 "11111111" false)) ∧
  sim_accounts simResponse ≫= (fun l => l !! 0)
    = Some (Some (infoOf 995 "11111111" false)) ∧
  fst (debugSignature world sigB defaultOptions (fresh localUrl)) = Ok traceB ∧
  accountDiffs <$> instructions traceB !! 1 = Some [diffX; diffPayer] ∧
  after diffPayer = before diffPayer ∧
  balance (changes diffPayer) = None.
Proof.
  split; [|repeat split; vm_compute; reflexivity].
  intros w sig options r. rewrite debugSignature_run.
  destruct (debugSignature_try w sig options r) as [[d|e] r'] eqn:Htry;
    [|constructor].
  destruct (debugSignature_try_inv w sig options r r' d Htry)
    as (tx & r1 & pre & sim & later & _ & _ & _ & _ & _ & Hasm).
  eapply Forall_impl; [exact (assemble_diffs w _ _ _ _ _ _ Hasm)|].
  intros di Hdi. eapply Forall_impl; [exact Hdi|].
  intros diff (_ & Hafter & _ & Hbal). by split.
Qed.

(** C7 as stated fails.  In the scenario [AccountX] is present before the
    dry run, with 500 lamports, and absent after it, and [AccountY] is
    absent before and present after; the first instruction touches both.
    Its only diff is the one of [AccountX], whose [after] is present and
    whose balance entry is unset; [AccountY] has no diff. *)
Lemma absence_transitions_not_reported :
  rpc_getAccountInfo world devnetUrl acctX = Ok (Some (infoOf 500 prog false)) ∧
  sim_accounts simResponse ≫= (fun l => l !! 1) = Some None ∧
  rpc_getAccountInfo world devnetUrl acctY = Ok None ∧
  sim_accounts simResponse ≫= (fun l => l !! 2)
    = Some (Some (infoOf 505 prog false)) ∧
  ∃ (d : DebugTransaction) (r' : Run),
    debugSignature world sigB defaultOptions (fresh localUrl) = (Ok d, r') ∧
    endpoint (connection (this r')) = devnetUrl ∧
    accountDiffs <$> instructions d !! 0 = Some [diffX] ∧
    after diffX = Some stateX ∧
    balance (changes diffX) = None.
Proof.
  repeat split; try (vm_compute; reflexivity).
  eexists; eexists. split; [vm_compute; reflexivity|].
  repeat split; vm_compute; reflexivity.
Qed.

(** C7, amended: a diff is emitted for an account only when the account
    was present before the dry run, that is, when the active endpoint
    returned a snapshot for it; every diff of every trace has both [before]
    and [after] present.  An account that is absent before the dry run gets
    no diff, and no diff shows an absent side. *)
Theorem accountDiffs_have_both_snapshots
    (w : World) (sig : string) (options : SimulateOptions) (r : Run) :
  match debugSignature w sig options r with
  | (Ok d, r') =>
      Forall (fun di =>
                Forall (fun diff =>
                          is_Some (before diff) ∧ is_Some (after diff) ∧
                          rpc_getAccountInfo w (endpoint (connection (this r')))
                                             (pubkey diff)
                            = Ok (account <$> before diff))
                       (accountDiffs di))
             (instructions d)
  | (Throw _, _) => False
  end.
Proof.
  rewrite debugSignature_run.
  destruct (debugSignature_try w sig options r) as [[d|e] r'] eqn:Htry;
    [|constructor].
  destruct (debugSignature_try_inv w sig options r r' d Htry)
    as (tx & r1 & pre & sim & later & _ & Hthis & _ & _ & Hpre & Hasm).
  rewrite Hthis.
  eapply Forall_impl; [exact (assemble_diffs w _ _ _ _ _ _ Hasm)|].
  intros di Hdi. eapply Forall_impl; [exact Hdi|].
  intros diff (Hlook & Hafter & [s Hs] & _).
  rewrite Hafter, Hs in *. repeat split; eauto.
  simpl. by apply Hpre.
Qed.

(** the run of the scenario ends with [traceB] *)
Lemma debugSignature_scenario :
  fst (debugSignature world sigB defaultOptions (fresh localUrl)) = Ok traceB.
Proof. vm_compute. reflexivity. Qed.

End SimulatorClaims.

(** ** More about the log parser *)

Module LogParserExtras.
Import JsString Regex LogParser Spec Invariants LogParserFacts.
Import LogParserRest GroupingSpec.

Lemma parseLine_cases (st : parse_state) (log : string) :
  parseLine st log =
    if opensBucket log then
      pushCurrent
        (ParseState (<[S (currentInstruction st) :=
                        default [] (instructionLogs st !! S (currentInstruction st))]>
                       (instructionLogs st))
                    (S (currentInstruction st)) true) log
    else if inInstruction st && negb (unmatchedInvoke log) then pushCurrent st log
    else Ok st.
Proof.
  unfold parseLine, opensBucket, unmatchedInvoke.
  destruct (startsWith "Program " log && includes " invoke [" log); simpl.
  - destruct (search invokeRe log) as [[|depth caps]|]; simpl;
      rewrite ?andb_false_r; try reflexivity.
    destruct (truthy depth); simpl; rewrite ?andb_false_r; [|reflexivity].
    destruct (String.eqb depth "1"); simpl; [reflexivity|].
    rewrite andb_true_r. reflexivity.
  - rewrite andb_true_r. reflexivity.
Qed.

Lemma bucketsInOrder_insert_above (m : gmap nat (list string)) (K j : nat)
    (b : list string) :
  K < j → bucketsInOrder (<[j := b]> m) K = bucketsInOrder m K.
Proof.
  intros Hj. unfold bucketsInOrder. apply list_fmap_ext.
  intros i k Hk. apply lookup_seq in Hk as [-> Hi].
  rewrite lookup_insert_ne by lia. reflexivity.
Qed.

Lemma bucketsInOrder_S (m : gmap nat (list string)) (K : nat) :
  bucketsInOrder m (S K) = bucketsInOrder m K ++ [default [] (m !! S K)].
Proof.
  unfold bucketsInOrder. rewrite seq_S, fmap_app. reflexivity.
Qed.

Lemma mjoin_snoc {A} (xs : list (list A)) (x : list A) :
  mjoin (xs ++ [x]) = mjoin xs ++ x.
Proof. rewrite join_app. simpl. by rewrite app_nil_r. Qed.

Lemma openBucket_explicit (st : parse_state) (log : string) :
  wellKeyed st →
  pushCurrent
    (ParseState (<[S (currentInstruction st) :=
                    default [] (instructionLogs st !! S (currentInstruction st))]>
                   (instructionLogs st))
                (S (currentInstruction st)) true) log =
  Ok (ParseState (<[S (currentInstruction st) := [log]]> (instructionLogs st))
                 (S (currentInstruction st)) true).
Proof.
  intros [Hk _].
  assert (instructionLogs st !! S (currentInstruction st) = None) as Hnone.
  { destruct (instructionLogs st !! S (currentInstruction st)) eqn:E; [|done].
    assert (1 ≤ S (currentInstruction st) ≤ currentInstruction st)
      by (apply Hk; eauto). lia. }
  unfold pushCurrent, push. cbn [instructionLogs currentInstruction inInstruction].
  rewrite Hnone, lookup_insert_eq. cbn [default].
  by rewrite insert_insert_eq.
Qed.

Lemma pushCurrent_explicit (st : parse_state) (log : string) (b : list string) :
  instructionLogs st !! currentInstruction st = Some b →
  pushCurrent st log =
    Ok (ParseState (<[currentInstruction st := b ++ [log]]> (instructionLogs st))
                   (currentInstruction st) (inInstruction st)).
Proof. intros Hb. unfold pushCurrent, push. by rewrite Hb. Qed.

Lemma parseLine_grouping (st : parse_state) (log : string) :
  wellKeyed st → bucketsOk st →
  ∃ st',
    parseLine st log = Ok st' ∧ wellKeyed st' ∧ bucketsOk st' ∧
    currentInstruction st' =
      currentInstruction st + (if opensBucket log then 1 else 0) ∧
    inInstruction st' = opensBucket log || inInstruction st ∧
    mjoin (bucketsInOrder (instructionLogs st') (currentInstruction st')) =
      mjoin (bucketsInOrder (instructionLogs st) (currentInstruction st)) ++
      (if opensBucket log then [log]
       else if inInstruction st && negb (unmatchedInvoke log) then [log]
       else []).
Proof.
  intros Hw Hb. rewrite parseLine_cases.
  destruct (opensBucket log) eqn:Hopen.
  - (* a new bucket *)
    destruct (openBucket_ok st log Hw) as (st' & E & Hw' & Hc').
    rewrite (openBucket_explicit st log Hw) in E |- *. injection E as <-.
    eexists. split; [reflexivity|]. split; [done|].
    split; [|split; [simpl; lia|split; [done|]]].
    + intros k b. cbn [instructionLogs].
      destruct (decide (k = S (currentInstruction st))) as [->|Hne].
      * rewrite lookup_insert_eq. intros [= <-].
        exists log, []. split; [done|]. split; [done|constructor].
      * rewrite lookup_insert_ne by done. apply Hb.
    + cbn [instructionLogs currentInstruction].
      rewrite bucketsInOrder_S, lookup_insert_eq. cbn [default].
      rewrite bucketsInOrder_insert_above by lia. apply mjoin_snoc.
  - destruct (inInstruction st) eqn:Hi; cbn [andb orb].
    + destruct (unmatchedInvoke log) eqn:Hu; cbn [negb].
      * exists st. rewrite Hi, app_nil_r.
        split; [done|]. split; [done|]. split; [done|]. split; [lia|done].
      * (* one more line in the open bucket *)
        destruct (pushCurrent_ok st log Hw Hi) as (st' & E & Hw' & Hc').
        destruct Hw as [Hk Hin]. specialize (Hin Hi).
        assert (is_Some (instructionLogs st !! currentInstruction st)) as [b Hbk]
          by (apply Hk; lia).
        rewrite (pushCurrent_explicit st log b Hbk) in E |- *. injection E as <-.
        eexists. split; [reflexivity|]. split; [done|].
        split; [|split; [lia|split; [done|]]].
        -- intros k b'. cbn [instructionLogs].
           destruct (decide (k = currentInstruction st)) as [->|Hne].
           ++ rewrite lookup_insert_eq. intros [= <-].
              destruct (Hb _ _ Hbk) as (o & r & -> & Ho & Hr).
              exists o, (r ++ [log]). split; [done|]. split; [done|].
              apply Forall_app. split; [done|]. by constructor.
           ++ rewrite lookup_insert_ne by done. apply Hb.
        -- cbn [instructionLogs currentInstruction].
           destruct (currentInstruction st) as [|c] eqn:Hc; [lia|].
           rewrite !bucketsInOrder_S, lookup_insert_eq, Hbk. cbn [default].
           rewrite bucketsInOrder_insert_above by lia.
           rewrite !mjoin_snoc, <- app_assoc. reflexivity.
    + exists st. rewrite Hi, app_nil_r.
      split; [done|]. split; [done|]. split; [done|]. split; [lia|done].
Qed.

Lemma parseLines_grouping (logs : list string) : ∀ st : parse_state,
  wellKeyed st → bucketsOk st →
  ∃ st',
    parseLines st logs = Ok st' ∧ wellKeyed st' ∧ bucketsOk st' ∧
    currentInstruction st' = currentInstruction st + bucketCount logs ∧
    mjoin (bucketsInOrder (instructionLogs st') (currentInstruction st')) =
      mjoin (bucketsInOrder (instructionLogs st) (currentInstruction st)) ++
      keptLines (inInstruction st) logs.
Proof.
  induction logs as [|log rest IH]; intros st Hw Hb; simpl.
  - exists st. unfold bucketCount. simpl. rewrite app_nil_r.
    split; [done|]. split; [done|]. split; [done|]. split; [lia|done].
  - destruct (parseLine_grouping st log Hw Hb)
      as (st1 & -> & Hw1 & Hb1 & Hc1 & Hi1 & Hj1).
    destruct (IH st1 Hw1 Hb1) as (st2 & -> & Hw2 & Hb2 & Hc2 & Hj2).
    exists st2. split; [done|]. split; [done|]. split; [done|]. split.
    + rewrite Hc2, Hc1. unfold bucketCount. simpl.
      destruct (opensBucket log); simpl; lia.
    + rewrite Hj2, Hj1, Hi1, <- app_assoc. f_equal.
      destruct (opensBucket log); simpl; [done|].
      destruct (inInstruction st); simpl; [|done].
      destruct (unmatchedInvoke log); done.
Qed.

(** X1: the buckets, read in the order of their keys, are the kept lines of
    the stream in their order: a line is kept when it opens a bucket, or when
    a bucket is open and the line is not an unmatched invoke line.  Every
    bucket is an opening line followed by lines that open nothing. *)
Theorem parseTransactionLogs_grouping (logs : list string) :
  ∃ m : gmap nat (list string),
    parseTransactionLogs logs = Ok m ∧
    mjoin (bucketsInOrder m (bucketCount logs)) = keptLines false logs ∧
    ∀ (k : nat) (bucket : list string), m !! k = Some bucket →
      wellFormedBucket bucket.
Proof.
  unfold parseTransactionLogs.
  destruct (parseLines_grouping logs initState wellKeyed_init)
    as (st & -> & _ & Hb & Hc & Hj).
  { intros k b. simpl. by rewrite lookup_empty. }
  exists (instructionLogs st). split; [done|]. split; [|exact Hb].
  simpl in Hc, Hj. by rewrite Hc in Hj.
Qed.

(** X2: a stream without an opening line, the empty stream among them,
    gives the empty mapping. *)
Theorem parseTransactionLogs_no_opener (logs : list string) :
  Forall (fun l => opensBucket l = false) logs →
  parseTransactionLogs logs = Ok ∅.
Proof.
  intros Hno.
  assert (bucketCount logs = 0) as H0.
  { unfold bucketCount. induction Hno as [|l ls Hl _ IH]; simpl; [done|].
    rewrite Hl. exact IH. }
  destruct (parseTransactionLogs_keys logs) as (m & -> & Hk). f_equal.
  apply map_empty. intros k.
  destruct (m !! k) eqn:E; [|done].
  assert (1 ≤ k ≤ bucketCount logs) by (apply Hk; eauto). lia.
Qed.

Lemma parseTransactionLogs_no_opener_witness :
  parseTransactionLogs ["Program Q invoke [2]"; "Program log: nested";
                        "Program Q success"] = Ok ∅.
Proof.
  apply (parseTransactionLogs_no_opener
           ["Program Q invoke [2]"; "Program log: nested"; "Program Q success"]).
  repeat constructor.
Defined.

Lemma lastN_app_ge {A} (n : nat) (early late : list A) :
  n ≤ List.length late → lastN n (early ++ late) = lastN n late.
Proof.
  intros Hn. unfold lastN. rewrite length_app.
  rewrite drop_app_ge by lia. f_equal. lia.
Qed.

Lemma lastN_subseteq {A} (n : nat) (l : list A) : lastN n l ⊆ l.
Proof. unfold lastN. apply subseteq_drop. Qed.

(** X3: a failure marker that is followed by five or more lines without
    one is not seen: the stream counts as successful as soon as it has a
    line with [Program log: Success]. *)
Theorem isTransactionSuccessful_ignores_early_failure (early late : list string) :
  5 ≤ List.length late →
  Forall (fun l => indicatesFailure l = false) late →
  (∃ l, l ∈ early ++ late ∧ includes "Program log: Success" l = true) →
  isTransactionSuccessful (early ++ late) = true.
Proof.
  intros Hlen Hclean Hsucc. unfold isTransactionSuccessful.
  rewrite lastN_app_ge by done.
  assert (existsb indicatesFailure (lastN 5 late) = false) as ->.
  { apply LogParserClaims.existsb_false_iff. intros x Hx.
    apply lastN_subseteq in Hx. by apply (proj1 (Forall_forall _ _) Hclean). }
  by apply LogParserClaims.existsb_true_iff.
Qed.

Lemma isTransactionSuccessful_ignores_early_failure_witness :
  isTransactionSuccessful
    (["Program P failed: custom program error: 0x1"] ++
     ["Program Q invoke [1]"; "Program log: Success"; "Program Q success";
      "Program R invoke [1]"; "Program R success"]) = true.
Proof.
  apply (isTransactionSuccessful_ignores_early_failure
           ["Program P failed: custom program error: 0x1"]
           ["Program Q invoke [1]"; "Program log: Success"; "Program Q success";
            "Program R invoke [1]"; "Program R success"]).
  - simpl. lia.
  - repeat constructor.
  - exists "Program log: Success". split; [|reflexivity].
    apply list_elem_of_In. simpl. tauto.
Defined.

Lemma prefix_app_l (p q : string) : ∀ s : string,
  String.prefix (p +:+ q) s = true → String.prefix p s = true.
Proof.
  induction p as [|a p IH]; intros s; [by destruct s|].
  destruct s as [|b s]; simpl; [done|].
  destruct (ascii_dec a b); [apply IH|done].
Qed.

Lemma includes_app_l (p q : string) : ∀ s : string,
  includes (p +:+ q) s = true → includes p s = true.
Proof.
  induction s as [|c s IH]; simpl; rewrite !orb_true_iff.
  - intros [H|H]; [|done]. left. by apply (prefix_app_l p q "").
  - intros [H|H]; [left; by apply (prefix_app_l p q (String c s))|right; by apply IH].
Qed.

Lemma extractErrorFromLogs_marker (logs : list string) :
  is_Some (extractErrorFromLogs logs) →
  ∃ l, l ∈ logs ∧ indicatesFailure l = true.
Proof.
  induction logs as [|log rest IH]; simpl; [by intros [? ?]|].
  destruct (includes "Error:" log || includes "failed:" log) eqn:Hm.
  - intros _. exists log. split; [left|].
    unfold indicatesFailure. apply orb_true_iff in Hm as [Hm|Hm].
    + by rewrite Hm, orb_true_r.
    + by rewrite (includes_app_l "failed" ":" log Hm).
  - intros H. destruct (IH H) as (l & Hl & Hf). exists l. split; [by right|done].
Qed.

(** X4: when [extractErrorFromLogs] finds an error in the last five lines
    of a stream, [isTransactionSuccessful] reports the stream as failed. *)
Theorem extractError_implies_unsuccessful (logs : list string) :
  is_Some (extractErrorFromLogs (lastN 5 logs)) →
  isTransactionSuccessful logs = false.
Proof.
  intros H. unfold isTransactionSuccessful.
  destruct (extractErrorFromLogs_marker _ H) as (l & Hl & Hf).
  assert (existsb indicatesFailure (lastN 5 logs) = true) as ->; [|done].
  apply LogParserClaims.existsb_true_iff. eauto.
Qed.

Lemma extractError_implies_unsuccessful_witness :
  isTransactionSuccessful
    ["Program P invoke [1]"; "Program log: Success";
     "Program P failed: custom program error: 0x1"] = false.
Proof.
  apply (extractError_implies_unsuccessful
           ["Program P invoke [1]"; "Program log: Success";
            "Program P failed: custom program error: 0x1"]).
  vm_compute. eauto.
Defined.

(** X5: the first line with a match decides [extractComputeUnits]: lines
    after it are not read, and lines without a match are passed over. *)
Theorem extractComputeUnits_app (before after : list string) :
  extractComputeUnits (before ++ after) =
    match extractComputeUnits before with
    | Some units => Some units
    | None => extractComputeUnits after
    end.
Proof.
  induction before as [|log rest IH]; simpl; [done|].
  destruct (search consumedRe log) as [[|units caps]|]; try done.
  by destruct (truthy units).
Qed.

Lemma prefix_append (p s : string) : String.prefix p (p +:+ s) = true.
Proof.
  induction p as [|a p IH]; simpl; [by destruct s|].
  destruct (ascii_dec a a); [done|congruence].
Qed.

Lemma includes_prefix (p s : string) :
  String.prefix p s = true → includes p s = true.
Proof. intros H. destruct s; cbn [includes]; by rewrite H. Qed.

Lemma includes_intro (p b : string) : ∀ a : string,
  includes p (a +:+ p +:+ b) = true.
Proof.
  induction a as [|c a IH].
  - change ("" +:+ p +:+ b) with (p +:+ b).
    apply includes_prefix, prefix_append.
  - change (String c a +:+ p +:+ b) with (String c (a +:+ p +:+ b)).
    cbn [includes]. rewrite IH. apply orb_true_r.
Qed.

Lemma wordRun_append (id rest : string) :
  wordRun id = String.length id →
  wordRun (id +:+ " " +:+ rest) = String.length id.
Proof.
  intros Hid. induction id as [|c id IH]; simpl in *; [done|].
  destruct (isWordChar c); [|done]. f_equal. apply IH. lia.
Qed.

Lemma take_append (id rest : string) : take (String.length id) (id +:+ rest) = id.
Proof.
  induction id as [|c id IH]; simpl; [by destruct rest|]. by rewrite IH.
Qed.

Lemma drop_append (id rest : string) : drop (String.length id) (id +:+ rest) = rest.
Proof. induction id as [|c id IH]; simpl; done. Qed.

Lemma search_invoke_skip (c : ascii) (s : string) :
  startsWith "invoke [" (String c s) = false →
  search invokeRe (String c s) = search invokeRe s.
Proof.
  intros H. cbn [search invokeRe matchHere]. by rewrite H.
Qed.

(** no occurrence of [invoke \[] begins inside a program id *)
Lemma prefix_cons (a b : ascii) (p s : string) :
  String.prefix (String a p) (String b s) =
    if ascii_dec a b then String.prefix p s else false.
Proof. reflexivity. Qed.

Lemma append_cons (c : ascii) (w s : string) :
  String c w +:+ s = String c (w +:+ s).
Proof. reflexivity. Qed.

(** no occurrence of [invoke \[] begins inside a program id *)
Lemma no_invoke_inside_id (w : string) :
  w ≠ "" → wordRun w = String.length w →
  startsWith "invoke [" (w +:+ " invoke [1]") = false.
Proof.
  intros Hne Hw. unfold startsWith.
  destruct w as [|c w]; [done|].
  rewrite append_cons, prefix_cons.
  destruct (ascii_dec _ c) as [<-|]; [|reflexivity].
  do 6 (destruct w as [|c w]; [reflexivity|];
        rewrite append_cons, prefix_cons;
        destruct (ascii_dec _ c) as [<-|]; [|reflexivity]).
  simpl in Hw. discriminate Hw.
Qed.

Lemma search_invoke_after_id (id : string) :
  wordRun id = String.length id →
  search invokeRe (id +:+ " invoke [1]") = Some ["1"].
Proof.
  induction id as [|c id IH]; intros Hw; [reflexivity|].
  change (String c id +:+ " invoke [1]") with (String c (id +:+ " invoke [1]")).
  rewrite search_invoke_skip.
  - apply IH. simpl in Hw. destruct (isWordChar c); [lia|discriminate].
  - apply (no_invoke_inside_id (String c id)); done.
Qed.

Lemma programIdHere_found (s id : string) :
  programIdHere s = Some id → extractProgramIdFromLog s = Some id.
Proof. intros H. destruct s; cbn [extractProgramIdFromLog]; by rewrite H. Qed.

Lemma programIdHere_invoke (id tail : string) :
  id ≠ "" → wordRun id = String.length id →
  programIdHere ("Program " +:+ id +:+ " invoke" +:+ tail) = Some id.
Proof.
  intros Hne Hw. unfold programIdHere.
  assert (startsWith "Program " ("Program " +:+ id +:+ " invoke" +:+ tail) = true)
    as -> by apply prefix_append.
  change (drop 8 ("Program " +:+ id +:+ " invoke" +:+ tail))
    with (id +:+ " " +:+ ("invoke" +:+ tail)).
  rewrite wordRun_append by done.
  destruct id as [|c id]; [done|].
  change (String.length (String c id)) with (S (String.length id)).
  cbn [backtrack].
  change (S (String.length id)) with (String.length (String c id)).
  rewrite drop_append, take_append.
  assert (startsWith " invoke" (" " +:+ "invoke" +:+ tail) = true) as ->
    by apply (prefix_append " invoke" tail).
  reflexivity.
Qed.

(** X6: the line the runtime writes when it enters a top-level instruction,
    [Program <id> invoke \[1\]] with an id of letters, digits and
    underscores, opens a bucket, and [extractProgramIdFromLog] gives the id
    back. *)
Theorem invoke_line_recognised (id : string) :
  id ≠ "" → wordRun id = String.length id →
  opensBucket ("Program " +:+ id +:+ " invoke [1]") = true ∧
  extractProgramIdFromLog ("Program " +:+ id +:+ " invoke [1]") = Some id.
Proof.
  intros Hne Hw. split.
  - unfold opensBucket.
    assert (startsWith "Program " ("Program " +:+ id +:+ " invoke [1]") = true) as ->
      by apply prefix_append.
    assert (includes " invoke [" ("Program " +:+ id +:+ " invoke [1]") = true) as ->.
    { exact (includes_intro " invoke [" "1]" ("Program " +:+ id)). }
    assert (search invokeRe ("Program " +:+ id +:+ " invoke [1]") = Some ["1"]) as ->;
      [|reflexivity].
    change ("Program " +:+ id +:+ " invoke [1]")
      with (String "P" (String "r" (String "o" (String "g" (String "r"
             (String "a" (String "m" (String " " (id +:+ " invoke [1]"))))))))).
    rewrite !search_invoke_skip by reflexivity.
    by apply search_invoke_after_id.
  - apply programIdHere_found.
    exact (programIdHere_invoke id " [1]" Hne Hw).
Qed.

Lemma invoke_line_recognised_witness :
  opensBucket "Program TokenkegQfeZyiNwAJbNbGKPFXCWuBvf9Ss623VQ5DA invoke [1]" = true ∧
  extractProgramIdFromLog
    "Program TokenkegQfeZyiNwAJbNbGKPFXCWuBvf9Ss623VQ5DA invoke [1]"
    = Some "TokenkegQfeZyiNwAJbNbGKPFXCWuBvf9Ss623VQ5DA".
Proof.
  apply (invoke_line_recognised "TokenkegQfeZyiNwAJbNbGKPFXCWuBvf9Ss623VQ5DA").
  - discriminate.
  - reflexivity.
Defined.

Lemma take_base58 (n : nat) : ∀ s : string,
  n ≤ base58Run s → base58Run (take n s) = String.length (take n s).
Proof.
  induction n as [|n IH]; intros [|c s]; simpl; try done.
  destruct (isBase58 c) eqn:Hc; [|lia]. intros Hn.
  f_equal. apply IH. lia.
Qed.

Lemma matchAllBase58_chars (s : string) : ∀ skip : nat,
  Forall (fun m => base58Run m = String.length m) (matchAllBase58 skip s).
Proof.
  induction s as [|c s IH]; intros skip; [constructor|].
  cbn [matchAllBase58]. destruct skip as [|k]; [|apply IH].
  destruct (Nat.leb 32 (Nat.min (base58Run (String c s)) 44)); [|apply IH].
  constructor; [|apply IH]. apply take_base58. lia.
Qed.

Lemma setAdd_ok (set : list string) (x : string) :
  NoDup set → Forall addressLike set → addressLike x →
  NoDup (setAdd set x) ∧ Forall addressLike (setAdd set x).
Proof.
  intros Hnd Hall Hx. unfold setAdd. case_bool_decide as Hin; [done|].
  split.
  - apply NoDup_app. split; [done|]. split; [|apply NoDup_singleton].
    intros y Hy Hy'. apply list_elem_of_singleton in Hy'. by subst.
  - apply Forall_app. split; [done|]. by constructor.
Qed.

Lemma addMatches_ok (matches : list string) : ∀ set : list string,
  Forall (fun m => base58Run m = String.length m) matches →
  NoDup set → Forall addressLike set →
  NoDup (addMatches set matches) ∧ Forall addressLike (addMatches set matches).
Proof.
  unfold addMatches.
  induction matches as [|m ms IH]; intros set Hms Hnd Hall;
    cbn [fold_left]; [done|].
  apply Forall_cons in Hms as [Hm Hms].
  destruct (Nat.leb_spec 32 (String.length m)) as [H32|H32];
  destruct (Nat.leb_spec (String.length m) 44) as [H44|H44]; cbn [andb];
    try (by apply IH).
  destruct (setAdd_ok set m Hnd Hall) as [? ?]; [by split|].
  by apply IH.
Qed.

(** X7: [extractAccountsFromLogs] reports no address twice, and everything
    it reports is 32 to 44 characters of the base-58 alphabet. *)
Theorem extractAccountsFromLogs_addresses (logs : list string) :
  NoDup (extractAccountsFromLogs logs) ∧
  Forall addressLike (extractAccountsFromLogs logs).
Proof.
  unfold extractAccountsFromLogs.
  assert (∀ set, NoDup set → Forall addressLike set →
            NoDup (fold_left (fun set log => addMatches set (matchAllBase58 0 log))
                             logs set) ∧
            Forall addressLike
              (fold_left (fun set log => addMatches set (matchAllBase58 0 log))
                         logs set)) as H.
  { induction logs as [|log rest IH]; intros set Hnd Hall; simpl; [done|].
    destruct (addMatches_ok (matchAllBase58 0 log) set) as [? ?];
      [apply matchAllBase58_chars|done|done|].
    by apply IH. }
  apply H; constructor.
Qed.

End LogParserExtras.

(** ** More about the Anchor decoder *)

Module AnchorExtras.
Import AnchorUtils Spec AnchorClaims.

Lemma copyName_length (nameBytes : list byte) : ∀ (n i : nat) (ph : list byte),
  List.length (copyName nameBytes ph i n) = List.length ph.
Proof.
  induction n as [|n IH]; intros i ph; simpl; [done|].
  destruct (Nat.ltb i (List.length nameBytes) && Nat.ltb i 8); [|done].
  by rewrite IH, length_insert.
Qed.

Lemma deriveInstructionDiscriminator_length (ixName : string) :
  List.length (deriveInstructionDiscriminator ixName) = 8.
Proof.
  unfold deriveInstructionDiscriminator.
  by rewrite copyName_length, length_replicate.
Qed.

Lemma findIn_Some (ixs : list IdlInstruction) (d : list byte) (ix : IdlInstruction) :
  findIn ixs d = Some ix ↔
  ∃ before after : list IdlInstruction,
    ixs = before ++ ix :: after ∧
    deriveInstructionDiscriminator (name ix) = d ∧
    Forall (fun j => deriveInstructionDiscriminator (name j) ≠ d) before.
Proof.
  split.
  - induction ixs as [|j ixs IH]; simpl; [discriminate|].
    destruct (Z.eqb_spec (bufferCompare d (deriveInstructionDiscriminator (name j))) 0)
      as [E|E].
    + intros [= <-]. apply bufferCompare_eq in E.
      exists [], ixs. split; [done|]. split; [done|constructor].
    + intros H. destruct (IH H) as (before & after & -> & Hd & Hb).
      exists (j :: before), after. split; [done|]. split; [done|].
      constructor; [|done]. intros Hj. apply E. apply bufferCompare_eq. done.
  - intros (before & after & -> & Hd & Hb).
    induction Hb as [|j before Hj _ IH]; simpl.
    + destruct (Z.eqb_spec (bufferCompare d (deriveInstructionDiscriminator (name ix))) 0)
        as [E|E]; [done|].
      exfalso. apply E. by apply bufferCompare_eq.
    + destruct (Z.eqb_spec (bufferCompare d (deriveInstructionDiscriminator (name j))) 0)
        as [E|E]; [|done].
      apply bufferCompare_eq in E. congruence.
Qed.

(** X8: a payload made of the discriminator of a declared instruction and
    any argument bytes decodes to that instruction, provided no instruction
    declared before it has the same discriminator; the arguments are [{}]
    when the instruction declares none and the hexadecimal text of the
    argument bytes otherwise. *)
Theorem decodeAnchorInstruction_of_payload
    (before after : list IdlInstruction) (ix : IdlInstruction)
    (argBytes : list byte) (programIdIndex : nat) (accountIndexes : list nat)
    (accountKeys : list PublicKey) :
  Forall (fun j => deriveInstructionDiscriminator (name j) ≠
                   deriveInstructionDiscriminator (name ix)) before →
  decodeAnchorInstruction
    (Compiled programIdIndex accountIndexes
              (deriveInstructionDiscriminator (name ix) ++ argBytes))
    (IdlDoc (Some (before ++ ix :: after))) accountKeys =
  Ok (Some {| dec_name := name ix;
              dec_ix := ix;
              dec_args := match args ix with
                          | Some (_ :: _) => RawData (toHex argBytes)
                          | _ => EmptyArgs
                          end |}).
Proof.
  intros Hb. unfold decodeAnchorInstruction, decodeAnchorInstruction_try.
  cbn [ix_data findInstructionByDiscriminator]. unfold DISCRIMINATOR_SIZE.
  pose proof (deriveInstructionDiscriminator_length (name ix)) as Hlen.
  rewrite take_app_length' by done. rewrite drop_app_length' by done.
  assert (findIn (before ++ ix :: after) (deriveInstructionDiscriminator (name ix))
          = Some ix) as ->.
  { apply findIn_Some. by exists before, after. }
  cbn. unfold decodeAnchorArgs. by destruct (args ix) as [[|? ?]|].
Qed.

Lemma decodeAnchorInstruction_of_payload_witness :
  decodeAnchorInstruction
    (Compiled 0 [] (deriveInstructionDiscriminator "transfer" ++ [xe8; x03]))
    (IdlDoc (Some ([] ++ transferIx :: []))) [] =
  Ok (Some {| dec_name := "transfer"; dec_ix := transferIx;
              dec_args := RawData (toHex [xe8; x03]) |}).
Proof.
  apply (decodeAnchorInstruction_of_payload [] [] transferIx [xe8; x03] 0 [] []).
  constructor.
Defined.

(** X9: whatever [decodeAnchorInstruction] decodes, it decodes to the first
    declared instruction whose discriminator is the first eight bytes of the
    payload: an instruction declared after another one with the same first
    eight name bytes is never the result. *)
Theorem decodeAnchorInstruction_first_declared
    (instruction : Instruction) (idl : Idl) (accountKeys : list PublicKey)
    (dec : DecodedInstruction) :
  decodeAnchorInstruction instruction idl accountKeys = Ok (Some dec) →
  dec_name dec = name (dec_ix dec) ∧
  dec_args dec = decodeAnchorArgs (drop 8 (ix_data instruction)) (dec_ix dec) ∧
  ∃ before after : list IdlInstruction,
    declared idl = before ++ dec_ix dec :: after ∧
    deriveInstructionDiscriminator (name (dec_ix dec)) = take 8 (ix_data instruction) ∧
    Forall (fun j => deriveInstructionDiscriminator (name j) ≠
                     take 8 (ix_data instruction)) before.
Proof.
  unfold decodeAnchorInstruction, decodeAnchorInstruction_try, DISCRIMINATOR_SIZE.
  destruct idl as [|[ixs|]];
    cbn [findInstructionByDiscriminator mbind outcome_bind declared];
    try discriminate.
  destruct (findIn ixs (take 8 (ix_data instruction))) as [ix|] eqn:Hf;
    [|discriminate].
  intros [= <-]. cbn [dec_name dec_ix dec_args]. split; [done|]. split; [done|].
  by apply findIn_Some.
Qed.

Lemma decodeAnchorInstruction_first_declared_witness :
  let shadowed := {| name := "transferChecked"; accounts := []; args := None |} in
  let dec := {| dec_name := "transfer"; dec_ix := transferIx;
                dec_args := RawData "" |} in
  dec_name dec = name (dec_ix dec) ∧
  dec_args dec = decodeAnchorArgs (drop 8 (list_byte_of_string "transfer")) (dec_ix dec) ∧
  ∃ before after : list IdlInstruction,
    [transferIx; shadowed] = before ++ dec_ix dec :: after ∧
    deriveInstructionDiscriminator (name (dec_ix dec))
      = take 8 (list_byte_of_string "transfer") ∧
    Forall (fun j => deriveInstructionDiscriminator (name j) ≠
                     take 8 (list_byte_of_string "transfer")) before.
Proof.
  intros shadowed dec.
  apply (decodeAnchorInstruction_first_declared
           (Compiled 0 [] (deriveInstructionDiscriminator "transferChecked"))
           (IdlDoc (Some [transferIx; shadowed])) [] dec).
  reflexivity.
Defined.

(** X10: a payload shorter than eight bytes is never decoded. *)
Theorem decodeAnchorInstruction_short_payload
    (instruction : Instruction) (idl : Idl) (accountKeys : list PublicKey) :
  List.length (ix_data instruction) < 8 →
  decodeAnchorInstruction instruction idl accountKeys = Ok None.
Proof.
  intros Hlen. unfold decodeAnchorInstruction, decodeAnchorInstruction_try.
  destruct idl as [|[ixs|]]; cbn; [done| |done].
  rewrite findIn_None; [done|].
  apply Forall_forall. intros ix _ Heq.
  apply (f_equal (@List.length byte)) in Heq.
  rewrite deriveInstructionDiscriminator_length, length_take in Heq.
  unfold DISCRIMINATOR_SIZE in *. lia.
Qed.

Lemma decodeAnchorInstruction_short_payload_witness :
  decodeAnchorInstruction (Compiled 0 [] (list_byte_of_string "burn"))
    (IdlDoc (Some [ {| name := "burn"; accounts := []; args := None |} ])) []
  = Ok None.
Proof.
  apply (decodeAnchorInstruction_short_payload
           (Compiled 0 [] (list_byte_of_string "burn"))
           (IdlDoc (Some [ {| name := "burn"; accounts := []; args := None |} ])) []).
  simpl. lia.
Defined.

Lemma hexDigit_inj (n m : N) :
  (n < 16)%N → (m < 16)%N → hexDigit n = hexDigit m → n = m.
Proof.
  intros Hn Hm H. apply (f_equal N_of_ascii) in H. unfold hexDigit in H.
  destruct (N.ltb_spec n 10); destruct (N.ltb_spec m 10);
    rewrite !N_ascii_embedding in H by lia; lia.
Qed.

Lemma byte_of_digits (x y : byte) :
  (Byte.to_N x / 16 = Byte.to_N y / 16)%N →
  (Byte.to_N x mod 16 = Byte.to_N y mod 16)%N → x = y.
Proof.
  intros Hd Hm.
  assert (Byte.to_N x = Byte.to_N y) as E.
  { rewrite (N.div_mod (Byte.to_N x) 16), (N.div_mod (Byte.to_N y) 16) by lia.
    by rewrite Hd, Hm. }
  apply (f_equal Byte.of_N) in E. rewrite !Byte.of_to_N in E. congruence.
Qed.

(** X11: the hexadecimal text keeps the bytes: it has two characters per
    byte, and two buffers with the same text are the same buffer. *)
Theorem toHex_faithful (a : list byte) :
  String.length (toHex a) = 2 * List.length a ∧
  ∀ b : list byte, toHex a = toHex b → a = b.
Proof.
  split.
  - induction a as [|x a IH]; simpl; [done|]. rewrite IH. lia.
  - induction a as [|x a IH]; intros [|y b]; simpl; try done.
    intros [= Hhi Hlo Hrest].
    pose proof (Byte.to_N_bounded x). pose proof (Byte.to_N_bounded y).
    f_equal; [|by apply IH].
    apply byte_of_digits.
    + apply hexDigit_inj; [apply N.Div0.div_lt_upper_bound; lia..|done].
    + apply hexDigit_inj; [apply N.mod_upper_bound; lia..|done].
Qed.

End AnchorExtras.

(** ** More about the orchestrator *)

Module SimulatorExtras.
Import AnchorUtils LogParser Simulator FallbackSpec Spec.
Import Invariants LogParserFacts SimulatorFacts Scenario AssemblySpec.

Section Runs.
Variable w : World.

Lemma fetchAccounts_requests (keys : list PublicKey) :
  ∀ (pre : gmap string AccountState) (r : Run),
    ∃ pre' : gmap string AccountState,
      fetchAccounts w pre keys r =
        (Ok pre',
         {| this := this r;
            requests := requests r ++
                        (GetAccountInfo (endpoint (connection (this r))) <$> keys) |}).
Proof.
  induction keys as [|key rest IH]; intros pre r; simpl.
  - exists pre. by rewrite app_nil_r, run_eta.
  - unfold mbind, M_bind. unfold fetchAccount at 1, getAccountInfo. unfoldM. simpl.
    destruct (rpc_getAccountInfo w (endpoint (connection (this r))) key)
      as [[info|]|e];
      match goal with
      | |- context [fetchAccounts w ?p rest ?r0] =>
          destruct (IH p r0) as (pre' & ->)
      end; exists pre'; simpl; by rewrite <- app_assoc.
Qed.

Lemma simulateFromSignature_ok (sig : string) (options : SimulateOptions)
    (r r' : Run) (sim : SimulatedTransactionResponse) :
  simulateFromSignature w sig options r = (Ok sim, r') →
  r' = {| this := this r;
          requests := requests r ++
            [GetTransaction (endpoint (connection (this r))) sig;
             GetLatestBlockhash (endpoint (connection (this r)));
             SimulateTransaction (endpoint (connection (this r)))] |}.
Proof.
  unfold simulateFromSignature, getTransaction, getLatestBlockhash,
    simulateTransaction. unfoldM. simpl.
  destruct (rpc_getTransaction w _ sig _) as [[t|]|e]; simpl; try discriminate.
  destruct (rpc_getLatestBlockhash w _ _) as [b|e]; simpl; try discriminate.
  intros [= _ <-]. by rewrite <- !app_assoc.
Qed.

(** whatever the [try] block does after it has located the transaction, it
    leaves the simulator as it is and talks to the active endpoint only *)
Lemma debugSignature_try_frame (sig : string) (options : SimulateOptions)
    (r r' : Run) (o : outcome DebugTransaction) :
  debugSignature_try w sig options r = (o, r') →
  ∃ (ol : outcome TransactionResponse) (r1 : Run) (later : list RpcCall),
    locateTransaction w sig options r = (ol, r1) ∧
    this r' = this r1 ∧
    requests r' = requests r1 ++ later ∧
    addressedTo (endpoint (connection (this r1))) later.
Proof.
  unfold debugSignature_try. unfold mbind at 1, M_bind.
  destruct (locateTransaction w sig options r) as [[tx|e] r1].
  - unfold mbind at 1, M_bind.
    destruct (fetchAccounts_run w (messageAccountKeys (message tx)) ∅ r1)
      as (pre & l1 & -> & _ & Hl1).
    { intros k s. by rewrite lookup_empty. }
    unfold mbind at 1, M_bind.
    destruct (simulateFromSignature_run w sig options
                {| this := this r1; requests := requests r1 ++ l1 |})
      as (os & l2 & -> & Hl2).
    destruct os as [sim|e]; unfoldM; simpl.
    + intros [= _ <-]. exists (Ok tx), r1, (l1 ++ l2). simpl.
      rewrite <- app_assoc. repeat split; try done. apply Forall_app. by split.
    + intros [= _ <-]. exists (Ok tx), r1, (l1 ++ l2). simpl.
      rewrite <- app_assoc. repeat split; try done. apply Forall_app. by split.
  - intros [= _ <-]. exists (Throw e), r1, []. rewrite app_nil_r.
    repeat split; try done. constructor.
Qed.

(** where [locateTransaction] can leave the simulator *)
Lemma locateTransaction_frame (sig : string) (options : SimulateOptions) (r : Run) :
  endpoint (connection (this r)) = rpcUrl (this r) →
  ∃ (o : outcome TransactionResponse) (r1 : Run) (probes : list string),
    locateTransaction w sig options r = (o, r1) ∧
    requests r1 = requests r ++
                  GetTransaction (rpcUrl (this r)) sig ::
                  ((fun n => GetTransaction n sig) <$> probes) ∧
    (this r1 = this r ∨
     ∃ n, n ∈ candidates (rpcUrl (this r)) ∧ this r1 = switchedTo (this r) n) ∧
    ((skipNetworkFallback options = true ∨
      rpc_getTransaction w (rpcUrl (this r)) sig (commitmentOf options) ≠ Ok None) →
     this r1 = this r ∧ probes = []).
Proof.
  intros Hend.
  destruct (rpc_getTransaction w (rpcUrl (this r)) sig (commitmentOf options))
    as [[t|]|e] eqn:Hfirst.
  - eexists; eexists; exists []. split.
    + unfold locateTransaction, getTransaction.
      unfold mbind, M_bind, getThis, request. rewrite Hend, Hfirst. reflexivity.
    + simpl. repeat split; auto.
  - destruct (skipNetworkFallback options) eqn:Hskip.
    + eexists; eexists; exists []. split.
      * rewrite <- Hend in Hfirst.
        apply (SimulatorClaims.locateTransaction_skip w sig options r Hfirst Hskip).
      * simpl. rewrite Hend. repeat split; auto.
    + pose proof (locateTransaction_run w sig options r Hend Hfirst Hskip) as Hloc.
      destruct (probe w sig (commitmentOf options) (candidates (rpcUrl (this r))))
        as [probed [[n t]|]] eqn:Hp.
      * eexists; eexists; exists probed. split; [exact Hloc|]. simpl.
        split; [done|]. split.
        -- right. exists n. split; [|done].
           destruct (probe_hit w _ _ _ _ _ _ Hp) as (missed & rest & -> & _).
           set_solver.
        -- intros [?|?]; done.
      * eexists; eexists; exists probed. split; [exact Hloc|]. simpl.
        split; [done|]. split; [by left|]. intros [?|?]; done.
  - eexists; eexists; exists []. split.
    + unfold locateTransaction, getTransaction.
      unfold mbind, M_bind, getThis, request. rewrite Hend, Hfirst. reflexivity.
    + simpl. repeat split; auto.
Qed.

Lemma assemble_status (self : TransactionSimulator) (sig : string)
    (tx : TransactionResponse) (pre : gmap string AccountState)
    (sim : SimulatedTransactionResponse) (d : DebugTransaction) :
  assemble w self sig tx pre sim = Ok d →
  success d = negb (truthy (err sim)) ∧
  error d = if truthy (err sim) then Some (formatError (err sim)) else None.
Proof.
  unfold assemble. unfold mbind, outcome_bind.
  destruct (parseTransactionLogs _) as [m|e]; [|discriminate].
  destruct (match message tx with Legacy _ _ _ _ => _ | Versioned _ => _ end)
    as [instrs|e]; [|discriminate].
  by intros [= <-].
Qed.

(** X12: every trace carries the signature it was asked for, and its
    [success] flag is set exactly when it has no error text. *)
Theorem debugSignature_status (sig : string) (options : SimulateOptions) (r : Run) :
  match debugSignature w sig options r with
  | (Ok d, _) => signature d = Some sig ∧ (success d = true ↔ error d = None)
  | (Throw _, _) => False
  end.
Proof.
  rewrite debugSignature_run.
  destruct (debugSignature_try w sig options r) as [[d|e] r'] eqn:Htry.
  - destruct (debugSignature_try_inv w sig options r r' d Htry)
      as (tx & r1 & pre & sim & later & _ & _ & _ & _ & _ & Hasm).
    destruct (assemble_meta w _ _ _ _ _ _ Hasm) as (Hsig & _).
    destruct (assemble_status _ _ _ _ _ _ Hasm) as (-> & ->).
    split; [done|]. by destruct (truthy (err sim)).
  - simpl. split; [done|]. split; discriminate.
Qed.

(** X13: when the fallback is disabled, or when the first lookup finds the
    transaction or throws, the run never leaves the network it started on:
    the simulator is unchanged and every request goes to its endpoint. *)
Theorem debugSignature_stays_on_network
    (sig : string) (options : SimulateOptions) (r : Run) :
  endpoint (connection (this r)) = rpcUrl (this r) →
  skipNetworkFallback options = true ∨
  rpc_getTransaction w (rpcUrl (this r)) sig (commitmentOf options) ≠ Ok None →
  ∃ (d : DebugTransaction) (r' : Run) (later : list RpcCall),
    debugSignature w sig options r = (Ok d, r') ∧
    this r' = this r ∧
    requests r' = requests r ++ later ∧
    addressedTo (rpcUrl (this r)) later.
Proof.
  intros Hend Hstay. rewrite debugSignature_run.
  destruct (debugSignature_try w sig options r) as [o r'] eqn:Htry.
  destruct (debugSignature_try_frame sig options r r' o Htry)
    as (ol & r1 & later & Hloc & Hthis & Hreq & Hlater).
  destruct (locateTransaction_frame sig options r Hend)
    as (ol' & r1' & probes & Hloc' & Hreq1 & _ & Hkeep).
  rewrite Hloc in Hloc'. injection Hloc' as <- <-.
  destruct (Hkeep Hstay) as [Hthis1 ->]. simpl in Hreq1.
  assert (this r' = this r) as Hsame by congruence.
  assert (requests r' = requests r ++ GetTransaction (rpcUrl (this r)) sig :: later)
    as Hall by (rewrite Hreq, Hreq1, <- app_assoc; done).
  assert (addressedTo (rpcUrl (this r)) (GetTransaction (rpcUrl (this r)) sig :: later))
    as Haddr.
  { constructor; [done|]. by rewrite Hthis1, Hend in Hlater. }
  destruct o as [d|e]; eexists; eexists; eexists; eauto.
Qed.

(** X14: a run keeps the simulator consistent: afterwards the connection
    still points at [rpcUrl], the IDL map is the same, the network is the
    one before or one of the three well-known ones, and the request log has
    only grown. *)
Theorem debugSignature_keeps_simulator_consistent
    (sig : string) (options : SimulateOptions) (r : Run) :
  endpoint (connection (this r)) = rpcUrl (this r) →
  ∃ (d : DebugTransaction) (r' : Run),
    debugSignature w sig options r = (Ok d, r') ∧
    endpoint (connection (this r')) = rpcUrl (this r') ∧
    anchorIdlMap (this r') = anchorIdlMap (this r) ∧
    (rpcUrl (this r') = rpcUrl (this r) ∨ rpcUrl (this r') ∈ fallbackNetworks) ∧
    ∃ later : list RpcCall, requests r' = requests r ++ later.
Proof.
  intros Hend. rewrite debugSignature_run.
  destruct (debugSignature_try w sig options r) as [o r'] eqn:Htry.
  destruct (debugSignature_try_frame sig options r r' o Htry)
    as (ol & r1 & later & Hloc & Hthis & Hreq & _).
  destruct (locateTransaction_frame sig options r Hend)
    as (ol' & r1' & probes & Hloc' & Hreq1 & Hwhere & _).
  rewrite Hloc in Hloc'. injection Hloc' as <- <-.
  assert (endpoint (connection (this r')) = rpcUrl (this r') ∧
          anchorIdlMap (this r') = anchorIdlMap (this r) ∧
          (rpcUrl (this r') = rpcUrl (this r) ∨ rpcUrl (this r') ∈ fallbackNetworks))
    as (H1 & H2 & H3).
  { rewrite Hthis. destruct Hwhere as [->|(n & Hn & ->)]; [by auto|].
    simpl. repeat split. right.
    unfold candidates in Hn. by apply list_elem_of_filter in Hn as [_ ?]. }
  assert (∃ l, requests r' = requests r ++ l) as Hgrow.
  { eexists. by rewrite Hreq, Hreq1, <- app_assoc. }
  destruct o as [d|e]; eexists; eexists; eauto.
Qed.

(** X15: the requests of a run that returns a trace of the transaction:
    after the lookups that located it, one account request per account key
    of the message, in the order of the keys, then the transaction once
    more, a block hash, and the dry run, all on the active endpoint. *)
Theorem debugSignature_requests
    (sig : string) (options : SimulateOptions) (r r' : Run) (d : DebugTransaction) :
  debugSignature_try w sig options r = (Ok d, r') →
  ∃ (tx : TransactionResponse) (r1 : Run),
    locateTransaction w sig options r = (Ok tx, r1) ∧
    requests r' =
      requests r1 ++
      (GetAccountInfo (endpoint (connection (this r1))) <$>
         messageAccountKeys (message tx)) ++
      [GetTransaction (endpoint (connection (this r1))) sig;
       GetLatestBlockhash (endpoint (connection (this r1)));
       SimulateTransaction (endpoint (connection (this r1)))].
Proof.
  unfold debugSignature_try. unfold mbind at 1, M_bind.
  destruct (locateTransaction w sig options r) as [[tx|e] r1]; [|discriminate].
  unfold mbind at 1, M_bind.
  destruct (fetchAccounts_requests (messageAccountKeys (message tx)) ∅ r1)
    as (pre & ->).
  unfold mbind at 1, M_bind.
  destruct (simulateFromSignature w sig options _) as [[sim|e] r2] eqn:Hsim;
    [|discriminate].
  apply simulateFromSignature_ok in Hsim. subst r2. unfoldM. simpl.
  destruct (assemble w (this r1) sig tx pre sim); [|discriminate].
  intros [= _ <-]. exists tx, r1. split; [done|]. simpl.
  by rewrite <- app_assoc.
Qed.

Lemma accountDiffsLoop_returns_iff (keys : list PublicKey)
    (pre : gmap string AccountState) (idxs : list nat) :
  ∀ diffs : list AccountDiff,
    (∃ res, accountDiffsLoop keys pre diffs idxs = Ok res) ↔
    Forall (fun idx => idx < List.length keys) idxs.
Proof.
  induction idxs as [|idx rest IH]; intros diffs; simpl.
  - split; [constructor|eauto].
  - unfold mbind, outcome_bind, accountDiffFor.
    destruct (keys !! idx) as [key|] eqn:Hk.
    + apply lookup_lt_Some in Hk as Hlt.
      destruct (pre !! key) as [s|]; rewrite IH;
        (split; [by constructor|by inversion 1]).
    + apply lookup_ge_None in Hk.
      split; [intros [? ?]; discriminate|]. inversion 1; subst. lia.
Qed.

Lemma accountDiffsLoop_pubkeys (keys : list PublicKey)
    (pre : gmap string AccountState) (idxs : list nat) :
  ∀ diffs res : list AccountDiff,
    accountDiffsLoop keys pre diffs idxs = Ok res →
    pubkey <$> res = (pubkey <$> diffs) ++ snapshotKeys keys pre idxs.
Proof.
  unfold snapshotKeys.
  induction idxs as [|idx rest IH]; intros diffs res; simpl.
  - intros [= <-]. by rewrite app_nil_r.
  - unfold mbind, outcome_bind, accountDiffFor.
    destruct (keys !! idx) as [key|] eqn:Hk; [|discriminate]. simpl.
    destruct (pre !! key) as [s|] eqn:Hs; simpl; intros H; rewrite (IH _ _ H).
    + rewrite fmap_app, <- app_assoc. reflexivity.
    + reflexivity.
Qed.

Lemma debugInstructionFor_returns_iff (self : TransactionSimulator)
    (keys : list PublicKey) (pre : gmap string AccountState)
    (m : gmap nat (list string)) (ix : MessageInstruction) (index : nat) :
  (∃ di, debugInstructionFor w self keys pre m ix index = Ok di) ↔ inRange keys ix.
Proof.
  unfold debugInstructionFor, inRange.
  rewrite <- (accountDiffsLoop_returns_iff keys pre (accounts ix) []).
  destruct (keys !! programIdIndex ix) as [pid|] eqn:Hp.
  - apply lookup_lt_Some in Hp. unfold mbind, outcome_bind.
    destruct (accountDiffsLoop keys pre [] (accounts ix)) as [diffs|e].
    + split; eauto.
    + split; [intros [? ?]; discriminate|]. intros [_ [? ?]]. discriminate.
  - apply lookup_ge_None in Hp. split; [intros [? ?]; discriminate|]. lia.
Qed.

Lemma forEachInstruction_each (self : TransactionSimulator)
    (keys : list PublicKey) (pre : gmap string AccountState)
    (m : gmap nat (list string)) (ixs : list MessageInstruction) :
  ∀ (done : list DebugInstruction) (index : nat) (res : list DebugInstruction),
    forEachInstruction w self keys pre m done ixs index = Ok res →
    ∃ news : list DebugInstruction,
      res = done ++ news ∧
      ∀ (j : nat) (di : DebugInstruction), news !! j = Some di →
        ∃ ix, ixs !! j = Some ix ∧
              debugInstructionFor w self keys pre m ix (index + j) = Ok di.
Proof.
  induction ixs as [|ix rest IH]; intros done index res; simpl.
  - intros [= <-]. exists []. rewrite app_nil_r. split; [done|].
    intros j di Hj. by rewrite lookup_nil in Hj.
  - unfold mbind, outcome_bind.
    destruct (debugInstructionFor w self keys pre m ix index) as [d|e] eqn:Hd;
      [|discriminate].
    intros Hrest. destruct (IH _ _ _ Hrest) as (news & -> & Hnews).
    exists (d :: news). rewrite <- app_assoc. split; [done|].
    intros [|j] di; simpl.
    + intros [= <-]. exists ix. by rewrite Nat.add_0_r.
    + intros Hj. destruct (Hnews j di Hj) as (ix' & ? & ?).
      exists ix'. split; [done|]. by replace (index + S j) with (S index + j) by lia.
Qed.

Lemma forEachInstruction_returns_iff (self : TransactionSimulator)
    (keys : list PublicKey) (pre : gmap string AccountState)
    (m : gmap nat (list string)) (ixs : list MessageInstruction) :
  ∀ (done : list DebugInstruction) (index : nat),
    (∃ res, forEachInstruction w self keys pre m done ixs index = Ok res) ↔
    Forall (inRange keys) ixs.
Proof.
  induction ixs as [|ix rest IH]; intros done index; simpl.
  - split; [constructor|eauto].
  - unfold mbind, outcome_bind.
    destruct (debugInstructionFor w self keys pre m ix index) as [d|e] eqn:Hd.
    + rewrite IH. split; [|by inversion 1].
      intros ?. constructor; [|done].
      apply (debugInstructionFor_returns_iff self keys pre m ix index). eauto.
    + split; [intros [? ?]; discriminate|]. inversion 1 as [|?? Hin ?]; subst.
      apply (debugInstructionFor_returns_iff self keys pre m ix index) in Hin
        as [di Hdi]. congruence.
Qed.

(** X16: the trace of a legacy transaction is assembled exactly when every
    instruction refers to account keys the message has; one program index or
    account index out of range makes the whole assembly throw, and no
    instruction is reported. *)
Theorem assemble_returns_iff (self : TransactionSimulator) (sig : string)
    (tx : TransactionResponse) (pre : gmap string AccountState)
    (sim : SimulatedTransactionResponse)
    (keys : list PublicKey) (ixs : list MessageInstruction) (sg wr : nat → bool) :
  message tx = Legacy keys ixs sg wr →
  (∃ d, assemble w self sig tx pre sim = Ok d) ↔ Forall (inRange keys) ixs.
Proof.
  intros Hmsg. unfold assemble. rewrite Hmsg. cbn [messageAccountKeys].
  destruct (parseTransactionLogs_keys (default [] (sim_logs sim))) as (m & -> & _).
  rewrite <- (forEachInstruction_returns_iff self keys pre m ixs [] 0).
  unfold mbind, outcome_bind.
  destruct (forEachInstruction w self keys pre m [] ixs 0) as [instrs|e].
  - split; eauto.
  - split; intros [? ?]; discriminate.
Qed.

Lemma assemble_each (self : TransactionSimulator) (sig : string)
    (tx : TransactionResponse) (pre : gmap string AccountState)
    (sim : SimulatedTransactionResponse) (d : DebugTransaction)
    (keys : list PublicKey) (ixs : list MessageInstruction) (sg wr : nat → bool) :
  message tx = Legacy keys ixs sg wr →
  assemble w self sig tx pre sim = Ok d →
  ∃ m : gmap nat (list string),
    ∀ (i : nat) (di : DebugInstruction), instructions d !! i = Some di →
      ∃ ix, ixs !! i = Some ix ∧
            debugInstructionFor w self keys pre m ix i = Ok di.
Proof.
  intros Hmsg. unfold assemble. rewrite Hmsg. cbn [messageAccountKeys].
  unfold mbind, outcome_bind.
  destruct (parseTransactionLogs _) as [m|e]; [|discriminate].
  destruct (forEachInstruction w self keys pre m [] ixs 0) as [instrs|e] eqn:Hf;
    [|discriminate].
  intros [= <-]. exists m. cbn [instructions].
  destruct (forEachInstruction_each _ _ _ _ _ _ _ _ Hf) as (news & -> & Hn).
  exact Hn.
Qed.

(** X17: in the trace of a legacy transaction, the diffs of an instruction
    are those of the accounts it lists that have a snapshot, one per
    listing and in the order of the list; the program id is the account key
    at the program index. *)
Theorem accountDiffs_follow_accounts (self : TransactionSimulator) (sig : string)
    (tx : TransactionResponse) (pre : gmap string AccountState)
    (sim : SimulatedTransactionResponse) (d : DebugTransaction)
    (keys : list PublicKey) (ixs : list MessageInstruction) (sg wr : nat → bool) :
  message tx = Legacy keys ixs sg wr →
  assemble w self sig tx pre sim = Ok d →
  ∀ (i : nat) (di : DebugInstruction), instructions d !! i = Some di →
    ∃ ix, ixs !! i = Some ix ∧
          keys !! programIdIndex ix = Some (programId di) ∧
          pubkey <$> accountDiffs di = snapshotKeys keys pre (accounts ix).
Proof.
  intros Hmsg Hasm i di Hdi.
  destruct (assemble_each _ _ _ _ _ _ _ _ _ _ Hmsg Hasm) as (m & Hm).
  destruct (Hm i di Hdi) as (ix & Hix & Hfor). exists ix. split; [done|].
  unfold debugInstructionFor in Hfor.
  destruct (keys !! programIdIndex ix) as [pid|]; [|discriminate].
  unfold mbind, outcome_bind in Hfor.
  destruct (accountDiffsLoop keys pre [] (accounts ix)) as [diffs|e] eqn:Hl;
    [|discriminate].
  injection Hfor as <-. cbn [programId accountDiffs]. split; [done|].
  by rewrite (accountDiffsLoop_pubkeys _ _ _ _ _ Hl).
Qed.


(** X19: for a versioned message the assembly never fails, and the trace
    has exactly one instruction, attributed to the System Program, that
    carries all the lines of the dry run and no diff. *)
Theorem assemble_versioned (self : TransactionSimulator) (sig : string)
    (tx : TransactionResponse) (pre : gmap string AccountState)
    (sim : SimulatedTransactionResponse) (keys : list PublicKey) :
  message tx = Versioned keys →
  ∃ d, assemble w self sig tx pre sim = Ok d ∧
       instructions d = [systemInstruction (default [] (sim_logs sim))].
Proof.
  intros Hmsg. unfold assemble. rewrite Hmsg.
  destruct (parseTransactionLogs_keys (default [] (sim_logs sim))) as (m & -> & _).
  eexists. split; reflexivity.
Qed.

End Runs.

Import Scenario2.

(** the scenario with the fallback disabled: the local validator misses
    and nothing else is asked *)
Lemma debugSignature_stays_on_network_witness :
  ∃ (d : DebugTransaction) (r' : Run) (later : list RpcCall),
    debugSignature world sigB noFallback (fresh localUrl) = (Ok d, r') ∧
    this r' = this (fresh localUrl) ∧
    requests r' = requests (fresh localUrl) ++ later ∧
    addressedTo localUrl later.
Proof.
  apply (debugSignature_stays_on_network world sigB noFallback (fresh localUrl)).
  - reflexivity.
  - left. reflexivity.
Defined.

Lemma debugSignature_keeps_simulator_consistent_witness :
  ∃ (d : DebugTransaction) (r' : Run),
    debugSignature world sigB defaultOptions (fresh localUrl) = (Ok d, r') ∧
    endpoint (connection (this r')) = rpcUrl (this r') ∧
    anchorIdlMap (this r') = ∅ ∧
    (rpcUrl (this r') = localUrl ∨ rpcUrl (this r') ∈ fallbackNetworks) ∧
    ∃ later : list RpcCall, requests r' = [] ++ later.
Proof.
  apply (debugSignature_keeps_simulator_consistent world sigB defaultOptions
           (fresh localUrl)).
  reflexivity.
Defined.

Lemma debugSignature_requests_witness :
  ∃ (tx : TransactionResponse) (r1 : Run),
    locateTransaction world sigB defaultOptions (fresh localUrl) = (Ok tx, r1) ∧
    requests (snd (debugSignature_try world sigB defaultOptions (fresh localUrl))) =
      requests r1 ++
      (GetAccountInfo (endpoint (connection (this r1))) <$>
         messageAccountKeys (message tx)) ++
      [GetTransaction (endpoint (connection (this r1))) sigB;
       GetLatestBlockhash (endpoint (connection (this r1)));
       SimulateTransaction (endpoint (connection (this r1)))].
Proof.
  apply (debugSignature_requests world sigB defaultOptions (fresh localUrl)
           (snd (debugSignature_try world sigB defaultOptions (fresh localUrl)))
           traceB).
  vm_compute. reflexivity.
Defined.

(** the second account index of the instruction is 7, the message has two
    keys: nothing is assembled *)
Lemma assemble_returns_iff_witness :
  (∃ d, assemble world selfT sigB txOutOfRange preT simResponse = Ok d) ↔
  Forall (inRange [payer; prog])
         [ {| programIdIndex := 1; accounts := [0; 7]; ix_bytes := [] |} ].
Proof.
  apply (assemble_returns_iff world selfT sigB txOutOfRange preT simResponse
           [payer; prog]
           [ {| programIdIndex := 1; accounts := [0; 7]; ix_bytes := [] |} ]
           (fun i => Nat.eqb i 0) (fun i => Nat.ltb i 1)).
  reflexivity.
Defined.

(** the instruction lists [AccountY], which has no snapshot, and
    [AccountX] twice *)
Lemma accountDiffs_follow_accounts_witness :
  ∃ di : DebugInstruction, instructions traceT !! 0 = Some di ∧
    ∃ ix, [ {| programIdIndex := 3; accounts := [2; 1; 1];
               ix_bytes := truncatedPayload |} ] !! 0 = Some ix ∧
          [payer; acctX; acctY; prog] !! programIdIndex ix = Some (programId di) ∧
          pubkey <$> accountDiffs di =
            snapshotKeys [payer; acctX; acctY; prog] preT (accounts ix).
Proof.
  assert (Hdi : ∃ di, instructions traceT !! 0 = Some di)
    by (vm_compute; eexists; reflexivity).
  destruct Hdi as [di Hdi]. exists di. split; [exact Hdi|].
  refine (accountDiffs_follow_accounts world selfT sigB txT preT simResponse traceT
           [payer; acctX; acctY; prog]
           [ {| programIdIndex := 3; accounts := [2; 1; 1];
                ix_bytes := truncatedPayload |} ]
           (fun i => Nat.eqb i 0) (fun i => Nat.ltb i 3) _ _ 0 di Hdi).
  - reflexivity.
  - vm_compute. reflexivity.
Defined.


(** the trace of the second scenario: the instruction is named [transfer] *)
Lemma traceT_named :
  (fun di => (instructionName di, pubkey <$> accountDiffs di)) <$> instructions traceT
  = [(Some "transfer", [acctX; acctX])].
Proof. vm_compute. reflexivity. Qed.

Lemma assemble_versioned_witness :
  ∃ d, assemble world selfT sigB txVersioned preT simResponse = Ok d ∧
       instructions d = [systemInstruction simLogs].
Proof.
  apply (assemble_versioned world selfT sigB txVersioned preT simResponse
           [payer; prog]).
  reflexivity.
Defined.

End SimulatorExtras.

(** ** [debugLocalTransaction] and its caller *)

Module LocalExtras.
Import AnchorUtils LogParser Simulator LocalSimulator FallbackSpec Spec.
Import Invariants LogParserFacts SimulatorFacts Scenario LocalScenario.

Section Runs.
Variable lw : LocalWorld.

Lemma simulateTransaction_run (transaction : LocalTransaction)
    (options : LocalOptions) (r : Run) :
  ∃ (o : outcome SimulatedTransactionResponse) (later : list RpcCall),
    simulateTransaction lw transaction options r =
      (o, {| this := this r; requests := requests r ++ later |}) ∧
    addressedTo (endpoint (connection (this r))) later ∧
    (∀ sim, o = Ok sim →
       later =
         (if replaceRecentBlockhash options && isLegacy transaction
          then [GetLatestBlockhash (endpoint (connection (this r)))] else []) ++
         [SimulateTransaction (endpoint (connection (this r)))]).
Proof.
  unfold simulateTransaction, simulateLocal, getLatestBlockhash. unfoldM.
  destruct (replaceRecentBlockhash options); destruct transaction as [t|v];
    cbn [andb isLegacy this requests].
  - destruct (rpc_getLatestBlockhash (base lw) _ _) as [b|e]; cbn [this requests].
    + eexists; eexists. rewrite <- app_assoc. split; [reflexivity|].
      split; [repeat constructor|done].
    + eexists; eexists. split; [reflexivity|].
      split; [repeat constructor|discriminate].
  - destruct (fromSerialized lw v) as [t|e]; cbn [this requests].
    + eexists; eexists. split; [reflexivity|]. split; [repeat constructor|done].
    + exists (Throw e), []. rewrite app_nil_r, run_eta.
      split; [reflexivity|]. split; [constructor|discriminate].
  - eexists; eexists. split; [reflexivity|]. split; [repeat constructor|done].
  - destruct (fromSerialized lw v) as [t|e]; cbn [this requests].
    + eexists; eexists. split; [reflexivity|]. split; [repeat constructor|done].
    + exists (Throw e), []. rewrite app_nil_r, run_eta.
      split; [reflexivity|]. split; [constructor|discriminate].
Qed.

Lemma forEachLocal_spec (self : TransactionSimulator) (keys : list PublicKey)
    (m : gmap nat (list string)) (ixs : list LoopInstruction) :
  ∀ (done : list DebugInstruction) (index : nat) (res : list DebugInstruction),
    forEachLocal lw self keys m done ixs index = Ok res →
    ∃ news : list DebugInstruction,
      res = done ++ news ∧
      List.length news = List.length ixs ∧
      ∀ (j : nat) (di : DebugInstruction), news !! j = Some di →
        instructionIndex di = index + j ∧
        accountDiffs di = [] ∧
        logs di = default [] (m !! (index + j)).
Proof.
  induction ixs as [|ix rest IH]; intros done index res; simpl.
  - intros [= <-]. exists []. rewrite app_nil_r.
    split; [done|split; [done|]]. intros j di Hj. by rewrite lookup_nil in Hj.
  - unfold mbind, outcome_bind.
    destruct (localInstructionFor lw self keys m ix index) as [d|e] eqn:Hd;
      [|discriminate].
    intros Hrest. destruct (IH _ _ _ Hrest) as (news & -> & Hlen & Hnews).
    exists (d :: news). rewrite <- app_assoc. split; [done|].
    split; [simpl; lia|].
    intros [|j] di; simpl.
    + intros [= <-]. rewrite Nat.add_0_r. unfold localInstructionFor in Hd.
      destruct (match ix with OfTransaction _ => _ | OfMessage _ => _ end);
        [|discriminate].
      by injection Hd as <-.
    + intros Hj. replace (index + S j) with (S index + j) by lia. by apply Hnews.
Qed.

Lemma localInstructionFor_legacy (self : TransactionSimulator)
    (keys : list PublicKey) (m : gmap nat (list string))
    (li : LocalInstruction) (index : nat) :
  ∃ d : DebugInstruction,
    localInstructionFor lw self keys m (OfTransaction li) index = Ok d ∧
    programId d = li_programId li.
Proof. eexists. split; reflexivity. Qed.

Lemma forEachLocal_legacy (self : TransactionSimulator) (keys : list PublicKey)
    (m : gmap nat (list string)) (lis : list LocalInstruction) :
  ∀ (done : list DebugInstruction) (index : nat),
    ∃ news : list DebugInstruction,
      forEachLocal lw self keys m done (OfTransaction <$> lis) index
        = Ok (done ++ news) ∧
      programId <$> news = li_programId <$> lis.
Proof.
  induction lis as [|li rest IH]; intros done index.
  - exists []. by rewrite app_nil_r.
  - cbn [fmap list_fmap forEachLocal].
    destruct (localInstructionFor_legacy self keys m li index) as (d & -> & Hd).
    cbn [mbind outcome_bind].
    destruct (IH (done ++ [d]) (S index)) as (news & Hn & Hp).
    exists (d :: news). split.
    + etransitivity; [exact Hn|]. by rewrite <- app_assoc.
    + cbn [fmap list_fmap]. f_equal; [done|exact Hp].
Qed.

(** X20: a transaction the caller built always assembles: the trace has one
    instruction per instruction of the transaction, with its program id, and
    no index can be out of range. *)
Theorem assembleLocal_legacy (self : TransactionSimulator)
    (t : LegacyTransaction) (keys : list PublicKey)
    (sim : SimulatedTransactionResponse) :
  ∃ d : DebugTransaction,
    assembleLocal lw self (IsLegacy t) keys sim = Ok d ∧
    programId <$> instructions d = li_programId <$> lt_instructions t.
Proof.
  unfold assembleLocal.
  destruct (parseTransactionLogs_keys (default [] (sim_logs sim))) as (m & -> & _).
  cbn [mbind outcome_bind loopInstructions].
  destruct (forEachLocal_legacy self keys m (lt_instructions t) [] 0)
    as (news & -> & Hp).
  eexists. split; [reflexivity|]. exact Hp.
Qed.

Lemma assembleLocal_spec (self : TransactionSimulator)
    (transaction : LocalTransaction) (keys : list PublicKey)
    (sim : SimulatedTransactionResponse) (d : DebugTransaction) :
  assembleLocal lw self transaction keys sim = Ok d →
  signature d = None ∧
  success d = negb (truthy (err sim)) ∧
  error d = (if truthy (err sim) then Some (formatError (err sim)) else None) ∧
  ∃ m : gmap nat (list string),
    m !! 0 = None ∧
    ∀ (i : nat) (di : DebugInstruction), instructions d !! i = Some di →
      instructionIndex di = i ∧ accountDiffs di = [] ∧
      logs di = default [] (m !! i).
Proof.
  unfold assembleLocal. unfold mbind, outcome_bind.
  destruct (parseTransactionLogs _) as [m|e] eqn:Hm; [|discriminate].
  destruct (forEachLocal lw self keys m [] (loopInstructions transaction) 0)
    as [instrs|e] eqn:Hf; [|discriminate].
  intros [= <-]. cbn. repeat split.
  exists m. split; [by apply (parseTransactionLogs_no_key_0 _ _ Hm)|].
  destruct (forEachLocal_spec _ _ _ _ _ _ _ Hf) as (news & -> & _ & Hn).
  exact Hn.
Qed.

(** what a run of [debugLocalTransaction] has gone through *)
Lemma debugLocalTransaction_frame (transaction : LocalTransaction)
    (options : LocalOptions) (r : Run) :
  ∃ (o : outcome DebugTransaction) (later : list RpcCall),
    debugLocalTransaction_try lw transaction options r =
      (o, {| this := this r; requests := requests r ++ later |}) ∧
    addressedTo (endpoint (connection (this r))) later ∧
    ∀ d, o = Ok d →
      ∃ (keys : list PublicKey) (sim : SimulatedTransactionResponse),
        assembleLocal lw (this r) transaction keys sim = Ok d ∧
        later =
          (GetAccountInfo (endpoint (connection (this r))) <$> keys) ++
          (if replaceRecentBlockhash options && isLegacy transaction
           then [GetLatestBlockhash (endpoint (connection (this r)))] else []) ++
          [SimulateTransaction (endpoint (connection (this r)))].
Proof.
  unfold debugLocalTransaction_try. unfold mbind at 1, M_bind.
  assert (∃ ok : outcome (list PublicKey),
            match transaction with
            | IsLegacy t => lift (compileMessage lw t)
            | IsVersioned v => mret (vt_staticAccountKeys v)
            end r = (ok, r)) as [ok ->].
  { destruct transaction; unfoldM; eauto. }
  destruct ok as [keys|e].
  2:{ exists (Throw e), []. rewrite app_nil_r, run_eta.
      split; [done|]. split; [constructor|discriminate]. }
  unfold mbind at 1, M_bind.
  destruct (SimulatorExtras.fetchAccounts_requests (base lw) keys ∅ r) as (pre & ->).
  unfold mbind at 1, M_bind.
  destruct (simulateTransaction_run transaction options
              {| this := this r;
                 requests := requests r ++
                   (GetAccountInfo (endpoint (connection (this r))) <$> keys) |})
    as (os & l2 & -> & Hl2 & Hok).
  cbn [this requests] in *.
  assert (addressedTo (endpoint (connection (this r)))
            ((GetAccountInfo (endpoint (connection (this r))) <$> keys) ++ l2)) as Haddr.
  { apply Forall_app. split; [|done]. apply Forall_fmap, Forall_forall. done. }
  destruct os as [sim|e]; unfoldM; cbn [this requests].
  - eexists; eexists. rewrite <- app_assoc. split; [reflexivity|]. split; [done|].
    intros d Hd. exists keys, sim.
    destruct (assembleLocal lw (this r) transaction keys sim); [|discriminate].
    split; [done|]. by rewrite (Hok sim eq_refl).
  - eexists; eexists. rewrite <- app_assoc. split; [reflexivity|]. split; [done|].
    discriminate.
Qed.

(** X21: [debugLocalTransaction] always returns a trace and never throws;
    it leaves the simulator as it is and sends every request to its
    endpoint; the trace has no signature, and its [success] flag is set
    exactly when it has no error text. *)
Theorem debugLocalTransaction_returns (transaction : LocalTransaction)
    (options : LocalOptions) (r : Run) :
  ∃ (d : DebugTransaction) (later : list RpcCall),
    debugLocalTransaction lw transaction options r =
      (Ok d, {| this := this r; requests := requests r ++ later |}) ∧
    addressedTo (endpoint (connection (this r))) later ∧
    signature d = None ∧
    (success d = true ↔ error d = None).
Proof.
  destruct (debugLocalTransaction_frame transaction options r)
    as (o & later & Htry & Haddr & Hok).
  unfold debugLocalTransaction, tryCatch. rewrite Htry.
  destruct o as [d|e].
  - exists d, later. split; [done|]. split; [done|].
    destruct (Hok d eq_refl) as (keys & sim & Hasm & _).
    destruct (assembleLocal_spec _ _ _ _ _ Hasm) as (-> & -> & -> & _).
    split; [done|]. by destruct (truthy (err sim)).
  - exists (localFailure e), later. split; [done|]. split; [done|].
    split; [done|]. split; discriminate.
Qed.


(** X23: the requests of a run of [debugLocalTransaction] that returns an
    assembled trace: one account request per account key, then a block hash
    only when the caller asked to replace it and the transaction is a legacy
    one, then the dry run. *)
Theorem debugLocalTransaction_requests (transaction : LocalTransaction)
    (options : LocalOptions) (r r' : Run) (d : DebugTransaction) :
  debugLocalTransaction_try lw transaction options r = (Ok d, r') →
  ∃ keys : list PublicKey,
    match transaction with
    | IsLegacy t => compileMessage lw t = Ok keys
    | IsVersioned v => vt_staticAccountKeys v = keys
    end ∧
    requests r' =
      requests r ++
      (GetAccountInfo (endpoint (connection (this r))) <$> keys) ++
      (if replaceRecentBlockhash options && isLegacy transaction
       then [GetLatestBlockhash (endpoint (connection (this r)))] else []) ++
      [SimulateTransaction (endpoint (connection (this r)))].
Proof.
  unfold debugLocalTransaction_try. unfold mbind at 1, M_bind.
  assert (∃ ok : outcome (list PublicKey),
            match transaction with
            | IsLegacy t => lift (compileMessage lw t)
            | IsVersioned v => mret (vt_staticAccountKeys v)
            end r = (ok, r) ∧
            ∀ keys, ok = Ok keys →
              match transaction with
              | IsLegacy t => compileMessage lw t = Ok keys
              | IsVersioned v => vt_staticAccountKeys v = keys
              end) as (ok & -> & Hkeys).
  { destruct transaction; unfoldM; eexists; (split; [reflexivity|]); congruence. }
  destruct ok as [keys|e]; [|discriminate].
  unfold mbind at 1, M_bind.
  destruct (SimulatorExtras.fetchAccounts_requests (base lw) keys ∅ r) as (pre & ->).
  unfold mbind at 1, M_bind.
  destruct (simulateTransaction_run transaction options
              {| this := this r;
                 requests := requests r ++
                   (GetAccountInfo (endpoint (connection (this r))) <$> keys) |})
    as (os & l2 & -> & _ & Hok).
  destruct os as [sim|e]; [|discriminate]. unfoldM. cbn [this requests] in *.
  destruct (assembleLocal lw (this r) transaction keys sim); [|discriminate].
  intros [= _ <-]. exists keys. split; [by apply Hkeys|].
  cbn [requests]. by rewrite (Hok sim eq_refl), <- app_assoc.
Qed.

(** X24: the [program] command debugs a transaction of one instruction, so
    whatever the dry run logs, its trace shows no log line. *)
Theorem programTransaction_trace_has_no_logs
    (programPubkey : PublicKey) (accountKeys signers : list PublicKey)
    (feePayer : PublicKey) (instructionData : list byte)
    (options : LocalOptions) (r : Run) :
  match debugLocalTransaction lw
          (IsLegacy (programTransaction programPubkey accountKeys signers
                                        feePayer instructionData))
          options r with
  | (Ok d, _) =>
      List.length (instructions d) ≤ 1 ∧
      Forall (fun di => logs di = []) (instructions d)
  | (Throw _, _) => False
  end.
Proof.
  set (tx := IsLegacy _).
  destruct (debugLocalTransaction_frame tx options r)
    as (o & later & Htry & _ & Hok).
  unfold debugLocalTransaction, tryCatch. rewrite Htry.
  destruct o as [d|e]; unfoldM; [|split; [simpl; lia|constructor]].
  destruct (Hok d eq_refl) as (keys & sim & Hasm & _).
  assert (List.length (instructions d) = 1) as Hlen.
  { destruct (assembleLocal_legacy (this r)
                (programTransaction programPubkey accountKeys signers feePayer
                                    instructionData) keys sim) as (d' & Hd' & Hp).
    fold tx in Hd'. rewrite Hasm in Hd'. injection Hd' as <-.
    apply (f_equal (@List.length string)) in Hp.
    by rewrite !length_fmap in Hp. }
  split; [lia|].
  destruct (assembleLocal_spec _ _ _ _ _ Hasm) as (_ & _ & _ & m & Hm0 & Hi).
  apply Forall_lookup. intros i di Hdi.
  assert (i = 0) as -> by (apply lookup_lt_Some in Hdi; lia).
  destruct (Hi 0 di Hdi) as (_ & _ & ->). by rewrite Hm0.
Qed.

End Runs.

Lemma existsb_pubkey (keys : list AccountMeta) (p : PublicKey) :
  existsb (fun k => String.eqb (meta_pubkey k) p) keys = true ↔
  p ∈ meta_pubkey <$> keys.
Proof.
  induction keys as [|k keys IH]; simpl.
  - split; [discriminate|]. intros H. by apply not_elem_of_nil in H.
  - rewrite orb_true_iff, IH, elem_of_cons, String.eqb_eq. split; intros [?|?]; auto.
Qed.

(** X25: the keys the [program] command gives its instruction are the
    accounts of the command line, in their order, each writable and marked
    as signer exactly when it is one of the signers; the fee payer is put in
    front when it is not among them, so it is always a key, and a signer. *)
Theorem instructionKeys_spec (accountKeys signers : list PublicKey)
    (feePayer : PublicKey) :
  feePayer ∈ signers →
  let keys := instructionKeys accountKeys signers feePayer in
  (meta_pubkey <$> keys = accountKeys ∧ feePayer ∈ accountKeys ∨
   meta_pubkey <$> keys = feePayer :: accountKeys ∧ feePayer ∉ accountKeys) ∧
  Forall (fun k => meta_isWritable k = true ∧
                   (meta_isSigner k = true ↔ meta_pubkey k ∈ signers)) keys.
Proof.
  intros Hpayer. unfold instructionKeys.
  set (mk := fun pubkey => {| meta_pubkey := pubkey;
                              meta_isSigner := bool_decide (pubkey ∈ signers);
                              meta_isWritable := true |}).
  assert (meta_pubkey <$> (mk <$> accountKeys) = accountKeys) as Hpk.
  { rewrite <- list_fmap_compose. by rewrite <- (list_fmap_id accountKeys) at 2. }
  assert (Forall (fun k => meta_isWritable k = true ∧
                           (meta_isSigner k = true ↔ meta_pubkey k ∈ signers))
                 (mk <$> accountKeys)) as Hall.
  { apply Forall_fmap, Forall_forall. intros p _. simpl.
    split; [done|]. apply bool_decide_eq_true. }
  destruct (existsb _ (mk <$> accountKeys)) eqn:Hex; cbn zeta.
  - apply existsb_pubkey in Hex. rewrite Hpk in Hex. split; [left; by split|done].
  - split.
    + right. cbn [fmap list_fmap]. fold (fmap meta_pubkey (mk <$> accountKeys)).
      rewrite Hpk. split; [done|]. intros Hin.
      rewrite <- Hpk in Hin. apply existsb_pubkey in Hin. congruence.
    + constructor; [|done]. simpl. split; [done|]. by split.
Qed.

Lemma instructionKeys_spec_witness :
  let keys := instructionKeys [acctX] [payer] payer in
  (meta_pubkey <$> keys = [acctX] ∧ payer ∈ [acctX] ∨
   meta_pubkey <$> keys = payer :: [acctX] ∧ payer ∉ [acctX]) ∧
  Forall (fun k => meta_isWritable k = true ∧
                   (meta_isSigner k = true ↔ meta_pubkey k ∈ [payer])) keys.
Proof.
  apply (instructionKeys_spec [acctX] [payer] payer).
  apply list_elem_of_In. simpl. tauto.
Defined.


(** a versioned transaction with a program index out of range ends in the
    failure record *)
Lemma debugLocalTransaction_versioned_out_of_range :
  fst (debugLocalTransaction localWorld (IsVersioned brokenVersioned)
         withBlockhash (fresh devnetUrl)) =
  Ok (localFailure
        (JsError "Cannot read properties of undefined (reading 'toString')")).
Proof. vm_compute. reflexivity. Qed.

(** the transaction of the [program] command, with the block hash replaced *)
Lemma debugLocalTransaction_requests_witness :
  ∃ keys : list PublicKey,
    compileMessage localWorld programTx = Ok keys ∧
    requests (snd (debugLocalTransaction_try localWorld (IsLegacy programTx)
                     withBlockhash (fresh devnetUrl))) =
      [] ++
      (GetAccountInfo devnetUrl <$> keys) ++
      [GetLatestBlockhash devnetUrl] ++
      [SimulateTransaction devnetUrl].
Proof.
  destruct (debugLocalTransaction_requests localWorld (IsLegacy programTx)
              withBlockhash (fresh devnetUrl)
              (snd (debugLocalTransaction_try localWorld (IsLegacy programTx)
                      withBlockhash (fresh devnetUrl)))
              programTrace) as (keys & Hk & Hr).
  - vm_compute. reflexivity.
  - exists keys. split; [exact Hk|exact Hr].
Defined.

End LocalExtras.
